(** * ABX group computation (cpc/eval/ABX/abx_group_computation.py)

    A shallow embedding of the ABX score pipeline: batch distance functions,
    the DTW wrapper, the triplet theta scorer, the per-unit evaluator, the
    strided worker and the process pool that merges the workers' lists.

    Conventions of the embedding.
    - A torch tensor is a shape together with its elements in row-major
      order ([tensor]); [view], broadcasting, reductions and item assignment
      are written over that representation and fail where torch raises.
    - Feature values are real numbers ([R]) in the distance functions;
      alignment costs are rationals ([Q]), so that the scorer computes.
      Rounding of float32 arithmetic is not represented: [max_val + 1] and
      the final division are exact, and a division by zero yields the
      float results [nan] / [inf] ([score]).
    - Python exceptions are values of [exn]; a computation that may raise
      returns a [result]. Calls whose order matters (prints, the distance
      function, the aligner) are recorded in a [trace].
    - [dtw.dtw_batch] is a collaborator whose code is not part of this
      module: it is a section variable of the scorer and of the pool. The
      distance function is an argument of the scorer, as in the source. *)

From Stdlib Require Import List Arith PeanoNat ZArith QArith Qabs Reals Psatz
  Bool String Permutation Sorted.
Import ListNotations.

Close Scope R_scope.
Close Scope Q_scope.
Close Scope Z_scope.
Open Scope string_scope.
Open Scope nat_scope.
Open Scope list_scope.

Set Implicit Arguments.

(** ** Exceptions and results *)

Inductive exn : Type :=
| AssertionError
| ValueError (msg : string)
| IndexError
| RuntimeError
| Raised (tag : string).

Definition result (A : Type) : Type := (exn + A)%type.

Abbreviation Ok := (@inr exn _).
Abbreviation Err := (@inl exn _).

Definition rbind {A B : Type} (r : result A) (k : A -> result B) : result B :=
  match r with
  | inl e => inl e
  | inr a => k a
  end.

Notation "'let?' x ':=' e 'in' k" := (rbind e (fun x => k))
  (at level 10, x pattern, e at level 100, k at level 200).

Definition rassert (b : bool) : result unit :=
  if b then Ok tt else Err AssertionError.

(** ** Traces: the observable calls of a run *)

Inductive event : Type :=
| EvPrint (s1 s2 : list nat)
| EvDistance
| EvAligner (ignore_diag symmetric : bool).

Definition trace : Type := list event.

Definition M (A : Type) : Type := trace -> result A * trace.

Definition ret {A : Type} (a : A) : M A := fun tr => (Ok a, tr).
Definition raise {A : Type} (e : exn) : M A := fun tr => (Err e, tr).
Definition emit (ev : event) : M unit := fun tr => (Ok tt, tr ++ [ev]).
Definition lift {A : Type} (r : result A) : M A := fun tr => (r, tr).

Definition bind {A B : Type} (m : M A) (k : A -> M B) : M B :=
  fun tr =>
    match m tr with
    | (inl e, tr') => (inl e, tr')
    | (inr a, tr') => k a tr'
    end.

Notation "x <- e ;; k" := (bind e (fun x => k))
  (at level 100, e at next level, k at level 200, right associativity).
Notation "' pat <- e ;; k" := (bind e (fun x => match x with pat => k end))
  (at level 100, pat pattern, e at next level, k at level 200, right associativity).
Notation "e ;;; k" := (bind e (fun _ => k))
  (at level 100, k at level 200, right associativity).

Definition massert (b : bool) : M unit := lift (rassert b).

(** ** Tensors *)

Class Default (T : Type) : Type := default : T.

#[global] Instance Default_R : Default R := 0%R.
#[global] Instance Default_Q : Default Q := 0%Q.
#[global] Instance Default_Z : Default Z := 0%Z.
#[global] Instance Default_bool : Default bool := false.

Record tensor (T : Type) : Type := mkTensor { size : list nat; data : list T }.

Arguments mkTensor {T} size data.

Definition numel (sh : list nat) : nat := fold_right Nat.mul 1 sh.

Definition wf {T : Type} (t : tensor T) : Prop :=
  List.length (data t) = numel (size t).

(** All multi-indices of a shape, in row-major order. *)
Fixpoint indices (sh : list nat) : list (list nat) :=
  match sh with
  | [] => [[]]
  | n :: sh' => flat_map (fun i => map (cons i) (indices sh')) (seq 0 n)
  end.

(** Position of a multi-index in the row-major storage. *)
Fixpoint offset (sh idx : list nat) : nat :=
  match sh, idx with
  | _ :: sh', i :: idx' => i * numel sh' + offset sh' idx'
  | _, _ => 0
  end.

Fixpoint in_range (sh idx : list nat) : Prop :=
  match sh, idx with
  | [], [] => True
  | n :: sh', i :: idx' => i < n /\ in_range sh' idx'
  | _, _ => False
  end.

Definition tget {T : Type} `{Default T} (t : tensor T) (idx : list nat) : T :=
  nth (offset (size t) idx) (data t) default.

(** [t.size(k)] *)
Definition size_at {T : Type} (t : tensor T) (k : nat) : result nat :=
  match nth_error (size t) k with
  | Some n => Ok n
  | None => Err IndexError
  end.

(** [n1, n2 = t.size()] and [n1, n2, n3 = t.size()] *)
Definition unpack2 (sh : list nat) : result (nat * nat) :=
  match sh with
  | [n1; n2] => Ok (n1, n2)
  | _ => Err (ValueError "unpack")
  end.

Definition unpack3 (sh : list nat) : result (nat * nat * nat) :=
  match sh with
  | [n1; n2; n3] => Ok (n1, n2, n3)
  | _ => Err (ValueError "unpack")
  end.

(** [t.view(sh)]: same storage, new shape; the element counts must agree. *)
Definition view {T : Type} (t : tensor T) (sh : list nat) : result (tensor T) :=
  if numel sh =? numel (size t) then Ok (mkTensor sh (data t))
  else Err RuntimeError.

(** Broadcasting of two shapes of the same rank. Every operand of this file
    is brought to the rank of the other by [view] first. *)
Fixpoint broadcast_shapes (s1 s2 : list nat) : result (list nat) :=
  match s1, s2 with
  | [], [] => Ok []
  | n1 :: r1, n2 :: r2 =>
      let? r := broadcast_shapes r1 r2 in
      if n1 =? n2 then Ok (n1 :: r)
      else if n1 =? 1 then Ok (n2 :: r)
      else if n2 =? 1 then Ok (n1 :: r)
      else Err RuntimeError
  | _, _ => Err RuntimeError
  end.

(** The index read in an operand of shape [sh] for the result index [idx]. *)
Fixpoint bidx (sh idx : list nat) : list nat :=
  match sh, idx with
  | n :: sh', i :: idx' => (if n =? 1 then 0 else i) :: bidx sh' idx'
  | _, _ => []
  end.

Definition tabulate {T : Type} (sh : list nat) (f : list nat -> T) : tensor T :=
  mkTensor sh (map f (indices sh)).

(** Elementwise binary operation with broadcasting ([a * b], [a - b], [a < b], [a == b]). *)
Definition broadcast2 {A B C : Type} `{Default A} `{Default B}
  (f : A -> B -> C) (a : tensor A) (b : tensor B) : result (tensor C) :=
  let? sh := broadcast_shapes (size a) (size b) in
  Ok (tabulate sh (fun idx => f (tget a (bidx (size a) idx)) (tget b (bidx (size b) idx)))).

Fixpoint expandable (s target : list nat) : bool :=
  match s, target with
  | [], [] => true
  | n :: s', m :: t' => ((n =? m) || (n =? 1)) && expandable s' t'
  | _, _ => false
  end.

(** [t.expand(sh)] *)
Definition expand {T : Type} `{Default T} (t : tensor T) (sh : list nat) : result (tensor T) :=
  if expandable (size t) sh
  then Ok (tabulate sh (fun idx => tget t (bidx (size t) idx)))
  else Err RuntimeError.

Definition tmap {A B : Type} (f : A -> B) (t : tensor A) : tensor B :=
  mkTensor (size t) (map f (data t)).

(** ** Facts about the row-major layout *)

Lemma length_indices : forall sh, List.length (indices sh) = numel sh.
Proof.
  induction sh as [|n sh IH]; simpl; [reflexivity|].
  assert (G : forall k m, List.length
            (flat_map (fun i => map (cons i) (indices sh)) (seq k m)) = m * numel sh).
  { intros k m; revert k; induction m as [|m IHm]; intros k; simpl; [reflexivity|].
    rewrite length_app, length_map, IH, IHm. reflexivity. }
  apply G.
Qed.

Lemma in_range_length : forall sh idx, in_range sh idx -> List.length idx = List.length sh.
Proof.
  induction sh as [|n sh IH]; destruct idx as [|i idx]; simpl; try tauto.
  intros [_ H]. f_equal. auto.
Qed.

Lemma offset_lt : forall sh idx, in_range sh idx -> offset sh idx < numel sh.
Proof.
  induction sh as [|n sh IH]; destruct idx as [|i idx]; simpl; try tauto; try lia.
  intros [Hi H]. specialize (IH _ H). nia.
Qed.

Lemma nth_flat_map_blocks :
  forall (A : Type) (f : nat -> list A) (p : nat) (d : A),
    (forall k, List.length (f k) = p) ->
    forall n k i o, i < n -> o < p ->
      nth (i * p + o) (flat_map f (seq k n)) d = nth o (f (k + i)) d.
Proof.
  intros A f p d Hlen. induction n as [|n IH]; intros k i o Hi Ho; [lia|].
  simpl. destruct i as [|i].
  - simpl. rewrite app_nth1 by (rewrite Hlen; exact Ho).
    rewrite Nat.add_0_r. reflexivity.
  - rewrite app_nth2 by (rewrite Hlen; simpl; lia).
    rewrite Hlen. replace (S i * p + o - p) with (i * p + o) by (simpl; lia).
    rewrite IH by lia. f_equal. f_equal. lia.
Qed.

Lemma nth_indices :
  forall sh idx d, in_range sh idx -> nth (offset sh idx) (indices sh) d = idx.
Proof.
  induction sh as [|n sh IH]; destruct idx as [|i idx]; simpl; try tauto.
  intros d [Hi H].
  rewrite (nth_flat_map_blocks (fun i => map (cons i) (indices sh)) (p := numel sh)).
  - simpl. rewrite nth_indep with (d' := i :: d).
    + rewrite (map_nth (cons i)). f_equal. apply IH. exact H.
    + rewrite length_map, length_indices. apply offset_lt. exact H.
  - intros k. rewrite length_map. apply length_indices.
  - exact Hi.
  - apply offset_lt. exact H.
Qed.

Lemma indices_in_range : forall sh idx, In idx (indices sh) -> in_range sh idx.
Proof.
  induction sh as [|n sh IH]; simpl; intros idx Hin.
  - destruct Hin as [<-|[]]. exact I.
  - apply in_flat_map in Hin. destruct Hin as (i & Hi & Hin).
    apply in_map_iff in Hin. destruct Hin as (idx' & <- & Hin').
    apply in_seq in Hi. simpl. split; [lia | auto].
Qed.

Lemma wf_tabulate : forall (T : Type) sh (f : list nat -> T), wf (tabulate sh f).
Proof.
  intros. unfold wf, tabulate. simpl. rewrite length_map. apply length_indices.
Qed.

Lemma tget_tabulate :
  forall (T : Type) `{Default T} sh (f : list nat -> T) idx,
    in_range sh idx -> tget (tabulate sh f) idx = f idx.
Proof.
  intros T D sh f idx Hr. unfold tget, tabulate. simpl.
  rewrite nth_indep with (d' := f idx).
  - rewrite (map_nth f). f_equal. apply nth_indices. exact Hr.
  - rewrite length_map, length_indices. apply offset_lt. exact Hr.
Qed.

Lemma broadcast_dim : forall n i, i < n -> (if n =? 1 then 0 else i) = i.
Proof.
  intros n i Hi. destruct (Nat.eqb_spec n 1); lia.
Qed.

Lemma tget_view :
  forall (T : Type) `{Default T} (t : tensor T) sh idx idx',
    offset sh idx' = offset (size t) idx ->
    tget (mkTensor sh (data t)) idx' = tget t idx.
Proof.
  intros T D t sh idx idx' E. unfold tget. simpl. rewrite E. reflexivity.
Qed.

(** ** Batch distance functions *)

Definition Rsum (l : list R) : R := fold_right Rplus 0%R l.

(** [t.sum(dim=k)] *)
Definition sum_dim (k : nat) (t : tensor R) : result (tensor R) :=
  match nth_error (size t) k with
  | None => Err IndexError
  | Some D =>
      let sh := firstn k (size t) ++ skipn (S k) (size t) in
      Ok (tabulate sh (fun idx =>
            Rsum (map (fun d => tget t (firstn k idx ++ d :: skipn k idx)) (seq 0 D))))
  end.

(** [torch.clamp(v, lo, hi)] *)
Definition clamp (lo hi v : R) : R := Rmin (Rmax v lo) hi.

(** The keyword argument [epsilon] of the source is never read, so it has
    no counterpart here. The second unpacking rebinds [D]. *)
Definition get_cosine_distance_batch (a1 a2 : tensor R) : result (tensor R) :=
  let? (N1, S1, _) := unpack3 (size a1) in
  let? (N2, S2, D) := unpack3 (size a2) in
  let? v1 := view a1 [N1; 1; S1; 1; D] in
  let? v2 := view a2 [1; N2; 1; S2; D] in
  let? prod := broadcast2 Rmult v1 v2 in
  let? prod := sum_dim 4 prod in
  Ok (tmap (fun v => (acos (clamp (-1) 1 v) / PI)%R) prod).

Definition get_euclidian_distance_batch (a1 a2 : tensor R) : result (tensor R) :=
  let? (N1, S1, _) := unpack3 (size a1) in
  let? (N2, S2, D) := unpack3 (size a2) in
  let? v1 := view a1 [N1; 1; S1; 1; D] in
  let? v2 := view a2 [1; N2; 1; S2; D] in
  let? diff := broadcast2 Rminus v1 v2 in
  let? s := sum_dim 4 (tmap (fun v => (v ^ 2)%R) diff) in
  Ok (tmap sqrt s).

(** The dot product of timestep [s] of sequence [i] of [a1] with timestep
    [t] of sequence [j] of [a2], over the [D] features. *)
Definition dot (a1 a2 : tensor R) (D i s j t : nat) : R :=
  Rsum (map (fun d => (tget a1 [i; s; d] * tget a2 [j; t; d])%R) (seq 0 D)).

Definition sq_dist (a1 a2 : tensor R) (D i s j t : nat) : R :=
  Rsum (map (fun d => ((tget a1 [i; s; d] - tget a2 [j; t; d]) ^ 2)%R) (seq 0 D)).

(** The shared front end of both distance functions: view both operands as
    5-dimensional, combine them with broadcasting, apply [g] elementwise and
    sum over the feature axis. *)
Definition pairwise (f : R -> R -> R) (g : R -> R) (a1 a2 : tensor R) : result (tensor R) :=
  let? (N1, S1, _) := unpack3 (size a1) in
  let? (N2, S2, D) := unpack3 (size a2) in
  let? v1 := view a1 [N1; 1; S1; 1; D] in
  let? v2 := view a2 [1; N2; 1; S2; D] in
  let? c := broadcast2 f v1 v2 in
  sum_dim 4 (tmap g c).

Lemma tmap_id : forall (T : Type) (t : tensor T), tmap (fun v => v) t = t.
Proof.
  intros T [sh d]. unfold tmap. simpl. rewrite map_id. reflexivity.
Qed.

Lemma cosine_as_pairwise :
  forall a1 a2,
    get_cosine_distance_batch a1 a2 =
    let? s := pairwise Rmult (fun v => v) a1 a2 in
    Ok (tmap (fun v => (acos (clamp (-1) 1 v) / PI)%R) s).
Proof.
  intros a1 a2. unfold get_cosine_distance_batch, pairwise.
  destruct (unpack3 (size a1)) as [e|[[N1 S1] D1]]; simpl; [reflexivity|].
  destruct (unpack3 (size a2)) as [e|[[N2 S2] D]]; simpl; [reflexivity|].
  destruct (view a1 _) as [e|v1]; simpl; [reflexivity|].
  destruct (view a2 _) as [e|v2]; simpl; [reflexivity|].
  destruct (broadcast2 Rmult v1 v2) as [e|c]; simpl; [reflexivity|].
  rewrite tmap_id. reflexivity.
Qed.

Lemma euclidian_as_pairwise :
  forall a1 a2,
    get_euclidian_distance_batch a1 a2 =
    let? s := pairwise Rminus (fun v => (v ^ 2)%R) a1 a2 in
    Ok (tmap sqrt s).
Proof.
  intros a1 a2. unfold get_euclidian_distance_batch, pairwise.
  destruct (unpack3 (size a1)) as [e|[[N1 S1] D1]]; simpl; [reflexivity|].
  destruct (unpack3 (size a2)) as [e|[[N2 S2] D]]; simpl; [reflexivity|].
  destruct (view a1 _) as [e|v1]; simpl; [reflexivity|].
  destruct (view a2 _) as [e|v2]; simpl; [reflexivity|].
  destruct (broadcast2 Rminus v1 v2) as [e|c]; simpl; reflexivity.
Qed.

Lemma broadcast_shapes_same :
  forall n r1 r2 r, broadcast_shapes r1 r2 = Ok r ->
    broadcast_shapes (n :: r1) (n :: r2) = Ok (n :: r).
Proof.
  intros n r1 r2 r E. simpl. rewrite E. simpl. rewrite Nat.eqb_refl. reflexivity.
Qed.

Lemma broadcast_shapes_right1 :
  forall n r1 r2 r, broadcast_shapes r1 r2 = Ok r ->
    broadcast_shapes (n :: r1) (1 :: r2) = Ok (n :: r).
Proof.
  intros n r1 r2 r E. simpl. rewrite E. simpl.
  destruct (Nat.eqb_spec n 1); reflexivity.
Qed.

Lemma broadcast_shapes_left1 :
  forall n r1 r2 r, broadcast_shapes r1 r2 = Ok r ->
    broadcast_shapes (1 :: r1) (n :: r2) = Ok (n :: r).
Proof.
  intros n r1 r2 r E. simpl. rewrite E. simpl.
  destruct n as [|[|n]]; reflexivity.
Qed.

Lemma broadcast_5d :
  forall N1 N2 S1 S2 D,
    broadcast_shapes [N1; 1; S1; 1; D] [1; N2; 1; S2; D] = Ok [N1; N2; S1; S2; D].
Proof.
  intros.
  apply broadcast_shapes_right1, broadcast_shapes_left1,
    broadcast_shapes_right1, broadcast_shapes_left1, broadcast_shapes_same.
  reflexivity.
Qed.

(** What [pairwise] returns on two batches with the same feature dimension. *)
Lemma pairwise_spec :
  forall f g a1 a2 N1 S1 N2 S2 D,
    size a1 = [N1; S1; D] -> size a2 = [N2; S2; D] ->
    exists r,
      pairwise f g a1 a2 = Ok r /\
      size r = [N1; N2; S1; S2] /\ wf r /\
      forall i j s t, i < N1 -> j < N2 -> s < S1 -> t < S2 ->
        tget r [i; j; s; t] =
        Rsum (map (fun d => g (f (tget a1 [i; s; d]) (tget a2 [j; t; d]))) (seq 0 D)).
Proof.
  intros f g a1 a2 N1 S1 N2 S2 D E1 E2.
  unfold pairwise. rewrite E1, E2. cbn [unpack3 rbind].
  unfold view. rewrite E1, E2.
  replace (numel [N1; 1; S1; 1; D] =? numel [N1; S1; D]) with true
    by (symmetry; apply Nat.eqb_eq; simpl; lia).
  replace (numel [1; N2; 1; S2; D] =? numel [N2; S2; D]) with true
    by (symmetry; apply Nat.eqb_eq; simpl; lia).
  cbn [rbind]. unfold broadcast2. cbn [size]. rewrite broadcast_5d. cbn [rbind].
  unfold sum_dim. cbn [tmap size tabulate nth_error firstn skipn app].
  eexists. split; [reflexivity|]. split; [reflexivity|]. split; [apply wf_tabulate|].
  intros i j s t Hi Hj Hs Ht.
  rewrite tget_tabulate by (simpl; tauto).
  f_equal. apply map_ext_in. intros d Hd. apply in_seq in Hd.
  cbn [firstn skipn app].
  change (mkTensor [N1; N2; S1; S2; D]
            (map g (map (fun idx => f (tget (mkTensor [N1; 1; S1; 1; D] (data a1)) (bidx [N1; 1; S1; 1; D] idx))
                                     (tget (mkTensor [1; N2; 1; S2; D] (data a2)) (bidx [1; N2; 1; S2; D] idx)))
                        (indices [N1; N2; S1; S2; D]))))
    with (tmap g (tabulate [N1; N2; S1; S2; D]
            (fun idx => f (tget (mkTensor [N1; 1; S1; 1; D] (data a1)) (bidx [N1; 1; S1; 1; D] idx))
                          (tget (mkTensor [1; N2; 1; S2; D] (data a2)) (bidx [1; N2; 1; S2; D] idx))))).
  unfold tmap, tabulate. cbn [size data]. rewrite map_map.
  change (mkTensor [N1; N2; S1; S2; D] (map ?h (indices [N1; N2; S1; S2; D])))
    with (tabulate [N1; N2; S1; S2; D] h).
  rewrite tget_tabulate by (cbn [in_range]; repeat split; lia).
  f_equal. f_equal.
  - cbn [bidx]. change (1 =? 1) with true. cbv iota.
    rewrite !broadcast_dim by lia.
    apply tget_view. rewrite E1. cbn [offset numel fold_right]. ring.
  - cbn [bidx]. change (1 =? 1) with true. cbv iota.
    rewrite !broadcast_dim by lia.
    apply tget_view. rewrite E2. cbn [offset numel fold_right]. ring.
Qed.

Lemma tget_tmap :
  forall (A B : Type) {DA : Default A} {DB : Default B} (h : A -> B) (t : tensor A) idx,
    wf t -> in_range (size t) idx -> tget (tmap h t) idx = h (tget t idx).
Proof.
  intros A B DA DB h t idx Hwf Hr. unfold tget, tmap. cbn [size data].
  rewrite nth_indep with (d' := h default).
  - apply map_nth.
  - rewrite length_map, Hwf. apply offset_lt. exact Hr.
Qed.

Lemma wf_tmap :
  forall (A B : Type) (h : A -> B) (t : tensor A), wf t -> wf (tmap h t).
Proof.
  intros A B h t Hwf. unfold wf, tmap in *. cbn [size data].
  rewrite length_map. exact Hwf.
Qed.

Lemma clamp_inside : forall v, (-1 <= v <= 1)%R -> clamp (-1) 1 v = v.
Proof.
  intros v [Hlo Hhi]. unfold clamp.
  rewrite Rmax_left by exact Hlo. apply Rmin_left. exact Hhi.
Qed.

(** What the cosine distance function returns on two batches with the same
    feature dimension. *)
Lemma cosine_spec :
  forall a1 a2 N1 S1 N2 S2 D,
    size a1 = [N1; S1; D] -> size a2 = [N2; S2; D] ->
    exists dist,
      get_cosine_distance_batch a1 a2 = Ok dist /\
      size dist = [N1; N2; S1; S2] /\ wf dist /\
      forall i j s t, i < N1 -> j < N2 -> s < S1 -> t < S2 ->
        tget dist [i; j; s; t] = (acos (clamp (-1) 1 (dot a1 a2 D i s j t)) / PI)%R.
Proof.
  intros a1 a2 N1 S1 N2 S2 D E1 E2.
  destruct (pairwise_spec Rmult (fun v => v) a1 a2 E1 E2) as (r & Hr & Hsz & Hwf & Hget).
  rewrite cosine_as_pairwise, Hr. cbn [rbind].
  eexists. split; [reflexivity|]. split; [exact Hsz|]. split; [apply wf_tmap; exact Hwf|].
  intros i j s t Hi Hj Hs Ht.
  rewrite (tget_tmap (DA := Default_R)) by (try exact Hwf; rewrite Hsz; cbn [in_range]; tauto).
  rewrite Hget by assumption. reflexivity.
Qed.

Lemma euclidian_spec :
  forall a1 a2 N1 S1 N2 S2 D,
    size a1 = [N1; S1; D] -> size a2 = [N2; S2; D] ->
    exists dist,
      get_euclidian_distance_batch a1 a2 = Ok dist /\
      size dist = [N1; N2; S1; S2] /\ wf dist /\
      forall i j s t, i < N1 -> j < N2 -> s < S1 -> t < S2 ->
        tget dist [i; j; s; t] = sqrt (sq_dist a1 a2 D i s j t).
Proof.
  intros a1 a2 N1 S1 N2 S2 D E1 E2.
  destruct (pairwise_spec Rminus (fun v => (v ^ 2)%R) a1 a2 E1 E2)
    as (r & Hr & Hsz & Hwf & Hget).
  rewrite euclidian_as_pairwise, Hr. cbn [rbind].
  eexists. split; [reflexivity|]. split; [exact Hsz|]. split; [apply wf_tmap; exact Hwf|].
  intros i j s t Hi Hj Hs Ht.
  rewrite (tget_tmap (DA := Default_R)) by (try exact Hwf; rewrite Hsz; cbn [in_range]; tauto).
  rewrite Hget by assumption. reflexivity.
Qed.

Lemma sq_dist_sym :
  forall a1 a2 D i s j t, sq_dist a1 a2 D i s j t = sq_dist a2 a1 D j t i s.
Proof.
  intros. unfold sq_dist. f_equal. apply map_ext. intros d. ring.
Qed.

(** ** Claims on the batch distance functions *)

(** C3. On batches of shapes (N1, S1, D) and (N2, S2, D) the cosine distance
    function returns a tensor of shape (N1, N2, S1, S2) whose entry
    [i, j, s, t] is arccos(clamp(dot(a1[i,s], a2[j,t]), -1, 1)) / pi, the dot
    product being summed over the feature axis before the arccos. Two
    identical timestep vectors of unit norm are at distance 0, two orthogonal
    ones at distance 1/2. *)
Theorem cosine_distance_entries :
  forall a1 a2 N1 S1 N2 S2 D,
    size a1 = [N1; S1; D] -> size a2 = [N2; S2; D] ->
    exists dist,
      get_cosine_distance_batch a1 a2 = Ok dist /\
      size dist = [N1; N2; S1; S2] /\ wf dist /\
      forall i j s t, i < N1 -> j < N2 -> s < S1 -> t < S2 ->
        tget dist [i; j; s; t] = (acos (clamp (-1) 1 (dot a1 a2 D i s j t)) / PI)%R /\
        ((forall d, d < D -> tget a1 [i; s; d] = tget a2 [j; t; d]) ->
         dot a1 a1 D i s i s = 1%R ->
         tget dist [i; j; s; t] = 0%R) /\
        (dot a1 a2 D i s j t = 0%R -> tget dist [i; j; s; t] = (1 / 2)%R).
Proof.
  intros a1 a2 N1 S1 N2 S2 D E1 E2.
  destruct (cosine_spec a1 a2 E1 E2) as (dist & Hrun & Hsz & Hwf & Hget).
  exists dist. repeat split; try assumption.
  - apply Hget; assumption.
  - intros Hsame Hunit. rewrite Hget by assumption.
    assert (Hdot : dot a1 a2 D i s j t = 1%R).
    { rewrite <- Hunit. unfold dot. f_equal. apply map_ext_in.
      intros d Hd. apply in_seq in Hd. rewrite Hsame by lia. reflexivity. }
    rewrite Hdot, clamp_inside by lra. rewrite acos_1. lra.
  - intros Horth. rewrite Hget by assumption.
    rewrite Horth, clamp_inside by lra. rewrite acos_0.
    pose proof PI_RGT_0. field. lra.
Qed.

Definition unit_e1 : tensor R := mkTensor [1; 1; 2] [1%R; 0%R].
Definition unit_e2 : tensor R := mkTensor [1; 1; 2] [0%R; 1%R].

Lemma cosine_distance_entries_witness :
  exists dist,
    get_cosine_distance_batch unit_e1 unit_e2 = Ok dist /\
    size dist = [1; 1; 1; 1] /\ wf dist /\
    forall i j s t, i < 1 -> j < 1 -> s < 1 -> t < 1 ->
      tget dist [i; j; s; t] =
        (acos (clamp (-1) 1 (dot unit_e1 unit_e2 2 i s j t)) / PI)%R /\
      ((forall d, d < 2 -> tget unit_e1 [i; s; d] = tget unit_e2 [j; t; d]) ->
       dot unit_e1 unit_e1 2 i s i s = 1%R ->
       tget dist [i; j; s; t] = 0%R) /\
      (dot unit_e1 unit_e2 2 i s j t = 0%R -> tget dist [i; j; s; t] = (1 / 2)%R).
Proof.
  apply (@cosine_distance_entries unit_e1 unit_e2 1 1 1 1 2); reflexivity.
Defined.

(** C4. The euclidian distance function is symmetric up to transposition:
    for batches with the same feature dimension both calls return, and the
    entry [i, j, s, t] of distance(a1, a2) is the entry [j, i, t, s] of
    distance(a2, a1). *)
Theorem euclidian_distance_transposed :
  forall a1 a2 N1 S1 N2 S2 D,
    size a1 = [N1; S1; D] -> size a2 = [N2; S2; D] ->
    exists d12 d21,
      get_euclidian_distance_batch a1 a2 = Ok d12 /\
      get_euclidian_distance_batch a2 a1 = Ok d21 /\
      size d12 = [N1; N2; S1; S2] /\ size d21 = [N2; N1; S2; S1] /\
      forall i j s t, i < N1 -> j < N2 -> s < S1 -> t < S2 ->
        tget d12 [i; j; s; t] = tget d21 [j; i; t; s].
Proof.
  intros a1 a2 N1 S1 N2 S2 D E1 E2.
  destruct (euclidian_spec a1 a2 E1 E2) as (d12 & H12 & Hs12 & _ & G12).
  destruct (euclidian_spec a2 a1 E2 E1) as (d21 & H21 & Hs21 & _ & G21).
  exists d12, d21. repeat split; try assumption.
  intros i j s t Hi Hj Hs Ht.
  rewrite G12, G21 by assumption. f_equal. apply sq_dist_sym.
Qed.

Lemma euclidian_distance_transposed_witness :
  exists d12 d21,
    get_euclidian_distance_batch unit_e1 unit_e2 = Ok d12 /\
    get_euclidian_distance_batch unit_e2 unit_e1 = Ok d21 /\
    size d12 = [1; 1; 1; 1] /\ size d21 = [1; 1; 1; 1] /\
    forall i j s t, i < 1 -> j < 1 -> s < 1 -> t < 1 ->
      tget d12 [i; j; s; t] = tget d21 [j; i; t; s].
Proof.
  apply (@euclidian_distance_transposed unit_e1 unit_e2 1 1 1 1 2); reflexivity.
Defined.

(** ** Alignment costs and scores *)

(** A Python float as the scorer can return it: a finite value, an
    infinity or nan. *)
Inductive score : Type :=
| SFin (q : Q)
| SInf (negative : bool)
| SNaN.

Definition Qltb (a b : Q) : bool := negb (Qle_bool b a).
Definition Qeqb (a b : Q) : bool := Qeq_bool a b.
Definition Qmaxb (a b : Q) : Q := if Qle_bool a b then b else a.

(** [sc /= d] on a float tensor holding [q], for an integer [d]. *)
Definition score_div (q : Q) (d : Z) : score :=
  if (d =? 0)%Z then
    if Qeqb q 0 then SNaN else SInf (Qltb q 0)
  else SFin (q / inject_Z d).

(** [1 - theta] *)
Definition score_compl (s : score) : score :=
  match s with
  | SFin q => SFin (1 - q)
  | SInf negative => SInf (negb negative)
  | SNaN => SNaN
  end.

(** [t.max()]: the largest element; torch raises on an empty tensor. *)
Definition tmax (t : tensor Q) : result Q :=
  match data t with
  | [] => Err RuntimeError
  | v :: l => Ok (fold_left Qmaxb l v)
  end.

(** [t.sum()] of a boolean tensor: the number of true entries. *)
Definition tsum (t : tensor bool) : Z :=
  Z.of_nat (List.length (filter (fun b => b) (data t))).

Fixpoint update {T : Type} (l : list T) (k : nat) (v : T) : list T :=
  match l, k with
  | [], _ => []
  | _ :: l', 0 => v :: l'
  | w :: l', S k' => w :: update l' k' v
  end.

(** [t[i, j] = v] on a matrix. *)
Definition setitem2 {T : Type} (t : tensor T) (i j : nat) (v : T) : result (tensor T) :=
  match size t with
  | [n0; n1] =>
      if (i <? n0) && (j <? n1)
      then Ok (mkTensor (size t) (update (data t) (offset (size t) [i; j]) v))
      else Err IndexError
  | _ => Err IndexError
  end.

(** [for i in range(Na): dxa[i, i] = v], over the list of the [i]. *)
Fixpoint overwrite_diagonal (range : list nat) (v : Q) (dxa : tensor Q) : result (tensor Q) :=
  match range with
  | [] => Ok dxa
  | i :: rest =>
      let? dxa' := setitem2 dxa i i v in
      overwrite_diagonal rest v dxa'
  end.

(** Lines 74 to 91 of [get_theta_group_dtw]: from the two alignment-cost
    matrices to the score. *)
Definition theta_of_costs (dxa dxb : tensor Q) (symmetric : bool) : result score :=
  let? (_, Na) := unpack2 (size dxa) in
  let? (Nx, Nb) := unpack2 (size dxb) in
  let? (n_pos, dxa) :=
    (if symmetric then
       let n_pos := (Z.of_nat Na * (Z.of_nat Na - 1))%Z in
       let? max_val := tmax dxb in
       let? dxa := overwrite_diagonal (seq 0 Na) (max_val + 1)%Q dxa in
       Ok (n_pos, dxa)
     else Ok ((Z.of_nat Na * Z.of_nat Nx)%Z, dxa)) in
  let? dxb := (let? v := view dxb [Nx; 1; Nb] in expand v [Nx; Na; Nb]) in
  let? dxa := (let? v := view dxa [Nx; Na; 1] in expand v [Nx; Na; Nb]) in
  let? lt := broadcast2 Qltb dxa dxb in
  let? eq := broadcast2 Qeqb dxa dxb in
  let sc := (inject_Z (tsum lt) + (1 # 2) * inject_Z (tsum eq))%Q in
  Ok (score_div sc (n_pos * Z.of_nat Nb)%Z).

Definition rank {T : Type} (t : tensor T) : nat := List.length (size t).

(** A group: a batch of sequences with the vector of their lengths. *)
Definition group (T : Type) : Type := (tensor T * tensor Z)%type.

(** A unit of work: coordinates and the groups A, B and X. *)
Definition group_unit (T : Type) : Type :=
  (list Z * group T * group T * group T)%type.

Section Scorer.

(** The element type of the feature batches; the scorer reads their
    shapes only. *)
Variable T : Type.

(** [dtw.dtw_batch(x, y, sx, sy, dist_mat, ignore_diag, symmetric)] *)
Variable dtw_batch :
  tensor T -> tensor T -> tensor Z -> tensor Z -> tensor T -> bool -> bool ->
  result (tensor Q).

Definition distance_fn : Type := tensor T -> tensor T -> result (tensor T).

Definition check_dtw_group_validity (a b x : tensor T) : result unit :=
  let? _ := rassert (rank a =? rank b) in
  let? _ := rassert (rank a =? rank x) in
  let? _ := (let? da := size_at a 2 in let? dx := size_at x 2 in rassert (da =? dx)) in
  let? da := size_at a 2 in let? db := size_at b 2 in rassert (da =? db).

(** [.detach().cpu().numpy()] changes where the distance matrix lives, not
    its entries; the default value of [distance_function] is not used by
    the scorer, which always passes one. *)
Definition get_distance_group_dtw (a1 a2 : tensor T) (size1 size2 : tensor Z)
  (ignore_diag symmetric : bool) (distance_function : distance_fn) : M (tensor Q) :=
  ' (N1, _, _) <- lift (unpack3 (size a1)) ;;
  ' (N2, _, _) <- lift (unpack3 (size a2)) ;;
  n1 <- lift (size_at size1 0) ;;
  (if negb (n1 =? N1)
   then emit (EvPrint (size a1) (size size1)) ;;;
        emit (EvPrint (size a2) (size size2))
   else ret tt) ;;;
  n1 <- lift (size_at size1 0) ;;
  massert (n1 =? N1) ;;;
  n2 <- lift (size_at size2 0) ;;
  massert (n2 =? N2) ;;;
  emit EvDistance ;;;
  distance_mat <- lift (distance_function a1 a2) ;;
  emit (EvAligner ignore_diag symmetric) ;;;
  lift (dtw_batch a1 a2 size1 size2 distance_mat ignore_diag symmetric).

Definition get_theta_group_dtw (a b x : tensor T) (sa sb sx : tensor Z)
  (distance_function : distance_fn) (symmetric : bool) : M score :=
  lift (check_dtw_group_validity a b x) ;;;
  dxb <- get_distance_group_dtw x b sx sb false false distance_function ;;
  dxa <- get_distance_group_dtw x a sx sa symmetric symmetric distance_function ;;
  lift (theta_of_costs dxa dxb symmetric).

Definition loc_dtw (data : group_unit T) (distance_function : distance_fn)
  (symmetric : bool) : M (list Z * score) :=
  let '(coords, group_a, group_b, group_x) := data in
  let '(group_a_data, group_a_size) := group_a in
  let '(group_b_data, group_b_size) := group_b in
  let '(group_x_data, group_x_size) := group_x in
  theta <- get_theta_group_dtw group_a_data group_b_data group_x_data
             group_a_size group_b_size group_x_size distance_function symmetric ;;
  ret (coords, score_compl theta).

End Scorer.

(** ** Facts about comparisons, maxima and item assignment *)

Lemma Qltb_lt : forall a b, Qltb a b = true <-> (a < b)%Q.
Proof.
  intros a b. unfold Qltb. rewrite negb_true_iff. split.
  - intros H. apply Qnot_le_lt. intros Hle.
    apply Qle_bool_iff in Hle. congruence.
  - intros H. destruct (Qle_bool b a) eqn:E; [|reflexivity].
    apply Qle_bool_iff in E. exfalso. exact (Qlt_not_le _ _ H E).
Qed.

Lemma Qeqb_eq : forall a b, Qeqb a b = true <-> (a == b)%Q.
Proof.
  intros. unfold Qeqb. apply Qeq_bool_iff.
Qed.

Lemma Qltb_above : forall m y, (y <= m)%Q -> Qltb (m + 1) y = false.
Proof.
  intros m y H. destruct (Qltb (m + 1) y) eqn:E; [|reflexivity].
  apply Qltb_lt in E. exfalso.
  apply (Qlt_not_le _ _ E). apply Qle_trans with m; [exact H|].
  rewrite <- (Qplus_0_r m) at 1. apply Qplus_le_r. discriminate.
Qed.

Lemma Qeqb_above : forall m y, (y <= m)%Q -> Qeqb (m + 1) y = false.
Proof.
  intros m y H. destruct (Qeqb (m + 1) y) eqn:E; [|reflexivity].
  apply Qeqb_eq in E. exfalso.
  assert (Hlt : (m < m + 1)%Q).
  { rewrite <- (Qplus_0_r m) at 1. apply Qplus_lt_r. reflexivity. }
  rewrite E in Hlt. exact (Qlt_not_le _ _ Hlt H).
Qed.

Lemma Qltb_Qeqb_exclusive : forall a b, Qltb a b = true -> Qeqb a b = false.
Proof.
  intros a b H. apply Qltb_lt in H.
  destruct (Qeqb a b) eqn:E; [|reflexivity].
  apply Qeqb_eq in E. rewrite E in H. exfalso. exact (Qlt_irrefl _ H).
Qed.

Lemma Qmaxb_ge_l : forall a b, (a <= Qmaxb a b)%Q.
Proof.
  intros a b. unfold Qmaxb. destruct (Qle_bool a b) eqn:E.
  - apply Qle_bool_iff. exact E.
  - apply Qle_refl.
Qed.

Lemma Qmaxb_ge_r : forall a b, (b <= Qmaxb a b)%Q.
Proof.
  intros a b. unfold Qmaxb. destruct (Qle_bool a b) eqn:E.
  - apply Qle_refl.
  - apply Qlt_le_weak. apply Qltb_lt. unfold Qltb. rewrite E. reflexivity.
Qed.

Lemma fold_Qmaxb_ge :
  forall l v, (v <= fold_left Qmaxb l v)%Q /\
              forall w, In w l -> (w <= fold_left Qmaxb l v)%Q.
Proof.
  induction l as [|u l IH]; intros v; simpl.
  - split; [apply Qle_refl | tauto].
  - destruct (IH (Qmaxb v u)) as [H1 H2]. split.
    + apply Qle_trans with (Qmaxb v u); [apply Qmaxb_ge_l | exact H1].
    + intros w [->|Hin].
      * apply Qle_trans with (Qmaxb v w); [apply Qmaxb_ge_r | exact H1].
      * apply H2. exact Hin.
Qed.

Lemma tmax_ge :
  forall t m, tmax t = Ok m -> forall w, In w (data t) -> (w <= m)%Q.
Proof.
  intros t m H w Hin. unfold tmax in H.
  destruct (data t) as [|v l]; [discriminate|].
  injection H as <-. destruct (fold_Qmaxb_ge l v) as [H1 H2].
  destruct Hin as [<-|Hin]; [exact H1 | apply H2; exact Hin].
Qed.

Lemma tmax_nonempty :
  forall t, wf t -> 0 < numel (size t) -> exists m, tmax t = Ok m.
Proof.
  intros t Hwf Hpos. unfold tmax. unfold wf in Hwf.
  destruct (data t) as [|v l]; simpl in Hwf; [lia|].
  eexists. reflexivity.
Qed.

Lemma tmax_empty :
  forall t, wf t -> numel (size t) = 0 -> tmax t = Err RuntimeError.
Proof.
  intros t Hwf Hz. unfold tmax. unfold wf in Hwf. rewrite Hz in Hwf.
  destruct (data t); [reflexivity | discriminate].
Qed.

Lemma tget_in :
  forall (T : Type) `{Default T} (t : tensor T) idx,
    wf t -> in_range (size t) idx -> In (tget t idx) (data t).
Proof.
  intros T D t idx Hwf Hr. unfold tget. apply nth_In.
  rewrite Hwf. apply offset_lt. exact Hr.
Qed.

Lemma length_update :
  forall (T : Type) (l : list T) k v, List.length (update l k v) = List.length l.
Proof.
  induction l as [|w l IH]; intros [|k] v; simpl; auto.
Qed.

Lemma nth_update_same :
  forall (T : Type) (l : list T) k v d, k < List.length l -> nth k (update l k v) d = v.
Proof.
  induction l as [|w l IH]; intros [|k] v d Hk; simpl in *; try lia; auto.
  apply IH. lia.
Qed.

Lemma nth_update_other :
  forall (T : Type) (l : list T) k k' v d, k <> k' -> nth k' (update l k v) d = nth k' l d.
Proof.
  induction l as [|w l IH]; intros [|k] [|k'] v d Hk; simpl; try reflexivity; try lia.
  apply IH. lia.
Qed.

Lemma offset2 : forall n0 n1 i j, offset [n0; n1] [i; j] = i * n1 + j.
Proof.
  intros. simpl. lia.
Qed.

Lemma offset2_inj :
  forall n1 i j i' j', j < n1 -> j' < n1 -> i * n1 + j = i' * n1 + j' -> i = i' /\ j = j'.
Proof.
  intros n1 i j i' j' Hj Hj' E.
  apply (Nat.div_mod_unique n1 i i' j j'); try assumption. lia.
Qed.

(** One item assignment on a well-formed matrix. *)
Lemma setitem2_spec :
  forall (T : Type) `{Default T} (t : tensor T) n0 n1 i j v,
    wf t -> size t = [n0; n1] -> i < n0 -> j < n1 ->
    exists t',
      setitem2 t i j v = Ok t' /\ size t' = [n0; n1] /\ wf t' /\
      forall x a, x < n0 -> a < n1 ->
        tget t' [x; a] = if (x =? i) && (a =? j) then v else tget t [x; a].
Proof.
  intros T D t n0 n1 i j v Hwf Hsz Hi Hj.
  unfold setitem2. rewrite Hsz.
  replace ((i <? n0) && (j <? n1)) with true
    by (symmetry; apply andb_true_iff; split; apply Nat.ltb_lt; assumption).
  eexists. split; [reflexivity|]. cbn [size]. split; [reflexivity|]. split.
  - unfold wf in *. cbn [size data]. rewrite length_update, Hwf, Hsz. reflexivity.
  - intros x a Hx Ha. unfold tget. cbn [size data]. rewrite Hsz, !offset2.
    destruct (Nat.eqb_spec x i) as [->|Hxi]; [destruct (Nat.eqb_spec a j) as [->|Haj]|]; simpl.
    + apply nth_update_same. rewrite Hwf, Hsz. simpl. nia.
    + apply nth_update_other. intros E. apply offset2_inj in E; try assumption.
      destruct E as [_ E]. congruence.
    + apply nth_update_other. intros E. apply offset2_inj in E; try assumption.
      destruct E as [E _]. congruence.
Qed.

Lemma setitem2_out_of_range :
  forall (T : Type) (t : tensor T) n0 n1 i j v,
    size t = [n0; n1] -> n0 <= i -> setitem2 t i j v = Err IndexError.
Proof.
  intros T t n0 n1 i j v Hsz Hi. unfold setitem2. rewrite Hsz.
  replace (i <? n0) with false by (symmetry; apply Nat.ltb_ge; exact Hi).
  reflexivity.
Qed.

(** The diagonal loop, started at [k] for [n] rounds, inside the matrix. *)
Lemma overwrite_diagonal_seq :
  forall n k v (t : tensor Q) Nx Na,
    wf t -> size t = [Nx; Na] -> k + n <= Nx -> k + n <= Na ->
    exists t',
      overwrite_diagonal (seq k n) v t = Ok t' /\ size t' = [Nx; Na] /\ wf t' /\
      forall x a, x < Nx -> a < Na ->
        tget t' [x; a] =
        if (x =? a) && (k <=? x) && (x <? k + n) then v else tget t [x; a].
Proof.
  induction n as [|n IH]; intros k v t Nx Na Hwf Hsz Hx Ha.
  - exists t. simpl. repeat split; try assumption.
    intros x a _ _.
    replace (x <? k + 0) with (negb (k <=? x)).
    + destruct (x =? a), (k <=? x); reflexivity.
    + rewrite Nat.add_0_r, Nat.ltb_antisym. reflexivity.
  - cbn [seq overwrite_diagonal].
    destruct (@setitem2_spec Q _ t Nx Na k k v Hwf Hsz) as (t1 & E1 & Hsz1 & Hwf1 & G1); try lia.
    rewrite E1. cbn [rbind].
    destruct (IH (S k) v t1 Nx Na Hwf1 Hsz1) as (t' & E' & Hsz' & Hwf' & G'); try lia.
    exists t'. repeat split; try assumption.
    intros x a Hxr Har. rewrite G', G1 by assumption.
    destruct (Nat.eqb_spec x a), (Nat.eqb_spec x k), (Nat.eqb_spec a k),
      (Nat.leb_spec (S k) x), (Nat.leb_spec k x),
      (Nat.ltb_spec x (S k + n)), (Nat.ltb_spec x (k + S n));
      cbn [andb]; try reflexivity; lia.
Qed.

(** The loop leaves the matrix when it has more columns than rows. *)
Lemma overwrite_diagonal_overrun :
  forall n k v (t : tensor Q) Nx Na,
    wf t -> size t = [Nx; Na] -> k <= Nx -> Nx < k + n -> k + n <= Na ->
    overwrite_diagonal (seq k n) v t = Err IndexError.
Proof.
  induction n as [|n IH]; intros k v t Nx Na Hwf Hsz Hk Hover Ha; [lia|].
  cbn [seq overwrite_diagonal].
  destruct (Nat.eq_dec k Nx) as [->|Hne].
  - rewrite (@setitem2_out_of_range Q t Nx Na) by (try assumption; lia). reflexivity.
  - destruct (@setitem2_spec Q _ t Nx Na k k v Hwf Hsz) as (t1 & E1 & Hsz1 & Hwf1 & _); try lia.
    rewrite E1. cbn [rbind]. apply (IH (S k) v t1 Nx Na); try assumption; lia.
Qed.

(** ** Counting over index triples *)

Definition nsum (n : nat) (f : nat -> nat) : nat := list_sum (map f (seq 0 n)).

(** The number of index triples (x, a, b) below (Nx, Na, Nb) that satisfy [p]. *)
Definition count_triples (Nx Na Nb : nat) (p : nat -> nat -> nat -> bool) : nat :=
  nsum Nx (fun x => nsum Na (fun a => nsum Nb (fun b => if p x a b then 1 else 0))).

Lemma nsum_ext :
  forall n f g, (forall i, i < n -> f i = g i) -> nsum n f = nsum n g.
Proof.
  intros n f g H. unfold nsum. f_equal. apply map_ext_in.
  intros i Hi. apply in_seq in Hi. apply H. lia.
Qed.

Lemma list_sum_le :
  forall (A : Type) (f g : A -> nat) l,
    (forall x, In x l -> f x <= g x) -> list_sum (map f l) <= list_sum (map g l).
Proof.
  induction l as [|x l IH]; intros H; simpl; [lia|].
  assert (f x <= g x) by (apply H; left; reflexivity).
  assert (list_sum (map f l) <= list_sum (map g l)) by (apply IH; intros; apply H; right; assumption).
  lia.
Qed.

Lemma nsum_le :
  forall n f g, (forall i, i < n -> f i <= g i) -> nsum n f <= nsum n g.
Proof.
  intros n f g H. unfold nsum. apply list_sum_le.
  intros i Hi. apply in_seq in Hi. apply H. lia.
Qed.

Lemma list_sum_const :
  forall (A : Type) (l : list A) c, list_sum (map (fun _ => c) l) = List.length l * c.
Proof.
  induction l as [|x l IH]; intros c; simpl; [reflexivity|]. rewrite IH. reflexivity.
Qed.

Lemma nsum_const : forall n c, nsum n (fun _ => c) = n * c.
Proof.
  intros. unfold nsum. rewrite list_sum_const, length_seq. reflexivity.
Qed.

Lemma list_sum_add :
  forall (A : Type) (f g : A -> nat) l,
    list_sum (map (fun x => f x + g x) l) = list_sum (map f l) + list_sum (map g l).
Proof.
  induction l as [|x l IH]; simpl; [reflexivity|]. rewrite IH. lia.
Qed.

Lemma nsum_add :
  forall n f g, nsum n (fun i => f i + g i) = nsum n f + nsum n g.
Proof.
  intros. unfold nsum. apply list_sum_add.
Qed.

Lemma length_filter_flat_map :
  forall (A B : Type) (p : B -> bool) (g : A -> list B) l,
    List.length (filter p (flat_map g l)) =
    list_sum (map (fun x => List.length (filter p (g x))) l).
Proof.
  induction l as [|x l IH]; simpl; [reflexivity|].
  rewrite filter_app, length_app, IH. reflexivity.
Qed.

Lemma length_filter_map :
  forall (A B : Type) (p : B -> bool) (h : A -> B) l,
    List.length (filter p (map h l)) = List.length (filter (fun x => p (h x)) l).
Proof.
  induction l as [|x l IH]; simpl; [reflexivity|].
  destruct (p (h x)); simpl; rewrite IH; reflexivity.
Qed.

Lemma count_indices_cons :
  forall (p : list nat -> bool) n sh,
    List.length (filter p (indices (n :: sh))) =
    nsum n (fun i => List.length (filter (fun idx => p (i :: idx)) (indices sh))).
Proof.
  intros p n sh. cbn [indices]. rewrite length_filter_flat_map.
  unfold nsum. f_equal. apply map_ext. intros i. apply length_filter_map.
Qed.

Lemma count_indices3 :
  forall (p : list nat -> bool) Nx Na Nb,
    List.length (filter p (indices [Nx; Na; Nb])) =
    count_triples Nx Na Nb (fun x a b => p [x; a; b]).
Proof.
  intros p Nx Na Nb. unfold count_triples.
  rewrite count_indices_cons. apply nsum_ext. intros x _.
  rewrite count_indices_cons. apply nsum_ext. intros a _.
  rewrite count_indices_cons. apply nsum_ext. intros b _.
  simpl. destruct (p [x; a; b]); reflexivity.
Qed.

Lemma count_triples_ext :
  forall Nx Na Nb p q,
    (forall x a b, x < Nx -> a < Na -> b < Nb -> p x a b = q x a b) ->
    count_triples Nx Na Nb p = count_triples Nx Na Nb q.
Proof.
  intros Nx Na Nb p q H. unfold count_triples.
  apply nsum_ext. intros x Hx. apply nsum_ext. intros a Ha.
  apply nsum_ext. intros b Hb. rewrite H by assumption. reflexivity.
Qed.

(** ** The comparison of the two broadcast cost tensors *)

Lemma broadcast_shapes_refl : forall sh, broadcast_shapes sh sh = Ok sh.
Proof.
  induction sh as [|n sh IH]; [reflexivity|].
  apply broadcast_shapes_same. exact IH.
Qed.

Lemma bidx_in_range : forall sh idx, in_range sh idx -> bidx sh idx = idx.
Proof.
  induction sh as [|n sh IH]; destruct idx as [|i idx]; simpl; try tauto.
  intros [Hi H]. rewrite IH by exact H.
  destruct (Nat.eqb_spec n 1); [f_equal; lia | reflexivity].
Qed.

(** [dxb.view(Nx, 1, Nb).expand(Nx, Na, Nb)] *)
Definition expand_b (dxb : tensor Q) (Nx Na Nb : nat) : result (tensor Q) :=
  let? v := view dxb [Nx; 1; Nb] in expand v [Nx; Na; Nb].

(** [dxa.view(Nx, Na, 1).expand(Nx, Na, Nb)] *)
Definition expand_a (dxa : tensor Q) (Nx Na Nb : nat) : result (tensor Q) :=
  let? v := view dxa [Nx; Na; 1] in expand v [Nx; Na; Nb].

Lemma expand_b_spec :
  forall dxb Nx Na Nb,
    size dxb = [Nx; Nb] ->
    exists b3,
      expand_b dxb Nx Na Nb = Ok b3 /\ size b3 = [Nx; Na; Nb] /\
      forall x a b, x < Nx -> a < Na -> b < Nb -> tget b3 [x; a; b] = tget dxb [x; b].
Proof.
  intros dxb Nx Na Nb Hsz. unfold expand_b, view. rewrite Hsz.
  replace (numel [Nx; 1; Nb] =? numel [Nx; Nb]) with true
    by (symmetry; apply Nat.eqb_eq; simpl; lia).
  cbn [rbind]. unfold expand. cbn [size expandable].
  rewrite !Nat.eqb_refl. cbn [orb andb]. rewrite orb_true_r. cbn [andb].
  eexists. split; [reflexivity|]. split; [reflexivity|].
  intros x a b Hx Ha Hb.
  rewrite tget_tabulate by (cbn [in_range]; tauto).
  cbn [bidx]. change (1 =? 1) with true. cbv iota.
  rewrite !broadcast_dim by assumption.
  apply tget_view. rewrite Hsz. cbn [offset numel fold_right]. ring.
Qed.

Lemma expand_a_spec :
  forall dxa Nx Na Nb,
    size dxa = [Nx; Na] ->
    exists a3,
      expand_a dxa Nx Na Nb = Ok a3 /\ size a3 = [Nx; Na; Nb] /\
      forall x a b, x < Nx -> a < Na -> b < Nb -> tget a3 [x; a; b] = tget dxa [x; a].
Proof.
  intros dxa Nx Na Nb Hsz. unfold expand_a, view. rewrite Hsz.
  replace (numel [Nx; Na; 1] =? numel [Nx; Na]) with true
    by (symmetry; apply Nat.eqb_eq; simpl; lia).
  cbn [rbind]. unfold expand. cbn [size expandable].
  rewrite !Nat.eqb_refl. cbn [orb andb]. rewrite orb_true_r. cbn [andb].
  eexists. split; [reflexivity|]. split; [reflexivity|].
  intros x a b Hx Ha Hb.
  rewrite tget_tabulate by (cbn [in_range]; tauto).
  cbn [bidx]. change (1 =? 1) with true. cbv iota.
  rewrite !broadcast_dim by assumption.
  apply tget_view. rewrite Hsz. cbn [offset numel fold_right]. ring.
Qed.

(** The number of true entries of an elementwise comparison of the two
    expanded tensors is a count over index triples. *)
Lemma compare_count :
  forall (f : Q -> Q -> bool) (a3 b3 : tensor Q) (ca cb : nat -> nat -> Q) Nx Na Nb,
    size a3 = [Nx; Na; Nb] -> size b3 = [Nx; Na; Nb] ->
    (forall x a b, x < Nx -> a < Na -> b < Nb -> tget a3 [x; a; b] = ca x a) ->
    (forall x a b, x < Nx -> a < Na -> b < Nb -> tget b3 [x; a; b] = cb x b) ->
    exists r,
      broadcast2 f a3 b3 = Ok r /\
      tsum r = Z.of_nat (count_triples Nx Na Nb (fun x a b => f (ca x a) (cb x b))).
Proof.
  intros f a3 b3 ca cb Nx Na Nb Ha Hb Ga Gb.
  unfold broadcast2. rewrite Ha, Hb, broadcast_shapes_refl. cbn [rbind].
  eexists. split; [reflexivity|].
  unfold tsum, tabulate. cbn [data]. f_equal.
  rewrite length_filter_map, count_indices3.
  apply count_triples_ext. intros x a b Hx Hxa Hxb.
  rewrite bidx_in_range by (cbn [in_range]; tauto).
  rewrite Ga, Gb by assumption. reflexivity.
Qed.

(** ** The score as the specification words it *)

(** The largest entry of a tensor that has one. *)
Definition largest (t : tensor Q) : Q :=
  match data t with
  | [] => 0%Q
  | v :: l => fold_left Qmaxb l v
  end.

(** The entry of [dxa] that takes part in the comparison: in symmetric mode
    the diagonal holds max(dxb) + 1. *)
Definition spec_cost_xa (symmetric : bool) (dxa dxb : tensor Q) (x a : nat) : Q :=
  if symmetric && (x =? a) then (largest dxb + 1)%Q else tget dxa [x; a].

Definition spec_wins (symmetric : bool) (dxa dxb : tensor Q) (Nx Na Nb : nat) : nat :=
  count_triples Nx Na Nb
    (fun x a b => Qltb (spec_cost_xa symmetric dxa dxb x a) (tget dxb [x; b])).

Definition spec_ties (symmetric : bool) (dxa dxb : tensor Q) (Nx Na Nb : nat) : nat :=
  count_triples Nx Na Nb
    (fun x a b => Qeqb (spec_cost_xa symmetric dxa dxb x a) (tget dxb [x; b])).

Definition spec_n_pos (symmetric : bool) (Nx Na : nat) : Z :=
  if symmetric then (Z.of_nat Na * (Z.of_nat Na - 1))%Z else (Z.of_nat Na * Z.of_nat Nx)%Z.

(** (wins + 0.5 * ties) / (n_pos * Nb) *)
Definition spec_theta (symmetric : bool) (dxa dxb : tensor Q) (Nx Na Nb : nat) : score :=
  score_div
    (inject_Z (Z.of_nat (spec_wins symmetric dxa dxb Nx Na Nb)) +
     (1 # 2) * inject_Z (Z.of_nat (spec_ties symmetric dxa dxb Nx Na Nb)))%Q
    (spec_n_pos symmetric Nx Na * Z.of_nat Nb)%Z.

Lemma tmax_largest : forall t m, tmax t = Ok m -> m = largest t.
Proof.
  intros t m H. unfold tmax in H. unfold largest.
  destruct (data t); [discriminate | congruence].
Qed.

(** The tail of the scorer, once the matrix that enters the comparison is
    known entry by entry. *)
Lemma compare_and_divide :
  forall (dxa' dxb : tensor Q) (ca : nat -> nat -> Q) Nx Na Nb (n_pos : Z),
    size dxa' = [Nx; Na] -> size dxb = [Nx; Nb] ->
    (forall x a, x < Nx -> a < Na -> tget dxa' [x; a] = ca x a) ->
    (let? dxb3 := expand_b dxb Nx Na Nb in
     let? dxa3 := expand_a dxa' Nx Na Nb in
     let? lt := broadcast2 Qltb dxa3 dxb3 in
     let? eq := broadcast2 Qeqb dxa3 dxb3 in
     let sc := (inject_Z (tsum lt) + (1 # 2) * inject_Z (tsum eq))%Q in
     Ok (score_div sc (n_pos * Z.of_nat Nb)%Z)) =
    Ok (score_div
          (inject_Z (Z.of_nat (count_triples Nx Na Nb
                                 (fun x a b => Qltb (ca x a) (tget dxb [x; b])))) +
           (1 # 2) * inject_Z (Z.of_nat (count_triples Nx Na Nb
                                 (fun x a b => Qeqb (ca x a) (tget dxb [x; b])))))%Q
          (n_pos * Z.of_nat Nb)%Z).
Proof.
  intros dxa' dxb ca Nx Na Nb n_pos Ha Hb Gca.
  destruct (@expand_b_spec dxb Nx Na Nb Hb) as (b3 & Eb & Hsb & Gb).
  destruct (@expand_a_spec dxa' Nx Na Nb Ha) as (a3 & Ea & Hsa & Ga).
  rewrite Eb, Ea. cbn [rbind].
  assert (Ga' : forall x a b, x < Nx -> a < Na -> b < Nb -> tget a3 [x; a; b] = ca x a).
  { intros x a b Hx Hxa Hxb. rewrite Ga by assumption. apply Gca; assumption. }
  destruct (@compare_count Qltb a3 b3 ca _ Nx Na Nb Hsa Hsb Ga' Gb) as (lt & Elt & Clt).
  destruct (@compare_count Qeqb a3 b3 ca _ Nx Na Nb Hsa Hsb Ga' Gb) as (eq & Eeq & Ceq).
  rewrite Elt, Eeq. cbn [rbind]. rewrite Clt, Ceq. reflexivity.
Qed.

Lemma theta_of_costs_asymmetric :
  forall dxa dxb Nx Na Nb,
    size dxa = [Nx; Na] -> size dxb = [Nx; Nb] ->
    theta_of_costs dxa dxb false = Ok (spec_theta false dxa dxb Nx Na Nb).
Proof.
  intros dxa dxb Nx Na Nb Ha Hb.
  unfold theta_of_costs. rewrite Ha, Hb. cbn [unpack2 rbind].
  apply (@compare_and_divide dxa dxb (fun x a => tget dxa [x; a]) Nx Na Nb); auto.
Qed.

Lemma theta_of_costs_symmetric :
  forall dxa dxb Nx Na Nb m,
    wf dxa -> size dxa = [Nx; Na] -> size dxb = [Nx; Nb] ->
    Na <= Nx -> tmax dxb = Ok m ->
    theta_of_costs dxa dxb true = Ok (spec_theta true dxa dxb Nx Na Nb).
Proof.
  intros dxa dxb Nx Na Nb m Hwf Ha Hb Hle Hmax.
  unfold theta_of_costs. rewrite Ha, Hb. cbn [unpack2 rbind].
  rewrite Hmax. cbn [rbind].
  destruct (@overwrite_diagonal_seq Na 0 (m + 1)%Q dxa Nx Na Hwf Ha) as (dxa' & E & Hsz & _ & G);
    try lia.
  rewrite E. cbn [rbind].
  apply (@compare_and_divide dxa' dxb (spec_cost_xa true dxa dxb) Nx Na Nb); auto.
  intros x a Hx Hxa. rewrite G by assumption.
  unfold spec_cost_xa. rewrite <- (tmax_largest _ Hmax). cbn [andb].
  destruct (Nat.eqb_spec x a) as [->|Hne]; cbn [andb]; [|reflexivity].
  replace (0 <=? a) with true by (symmetry; apply Nat.leb_le; lia).
  replace (a <? 0 + Na) with true by (symmetry; apply Nat.ltb_lt; lia).
  reflexivity.
Qed.

Lemma theta_of_costs_overrun :
  forall dxa dxb Nx Na Nb m,
    wf dxa -> size dxa = [Nx; Na] -> size dxb = [Nx; Nb] ->
    Nx < Na -> tmax dxb = Ok m ->
    theta_of_costs dxa dxb true = Err IndexError.
Proof.
  intros dxa dxb Nx Na Nb m Hwf Ha Hb Hlt Hmax.
  unfold theta_of_costs. rewrite Ha, Hb. cbn [unpack2 rbind].
  rewrite Hmax. cbn [rbind].
  rewrite (@overwrite_diagonal_overrun Na 0 (m + 1)%Q dxa Nx Na) by (try assumption; lia).
  reflexivity.
Qed.

Lemma theta_of_costs_no_max :
  forall dxa dxb Nx Na Nb,
    size dxa = [Nx; Na] -> size dxb = [Nx; Nb] -> wf dxb -> Nx * Nb = 0 ->
    theta_of_costs dxa dxb true = Err RuntimeError.
Proof.
  intros dxa dxb Nx Na Nb Ha Hb Hwf Hz.
  unfold theta_of_costs. rewrite Ha, Hb. cbn [unpack2 rbind].
  rewrite tmax_empty; [reflexivity | exact Hwf |].
  rewrite Hb. simpl. lia.
Qed.

(** ** The score lies between 0 and 1 *)

Lemma largest_ge : forall t w, In w (data t) -> (w <= largest t)%Q.
Proof.
  intros t w Hin. unfold largest. destruct (data t) as [|v l]; [destruct Hin|].
  destruct (fold_Qmaxb_ge l v) as [H1 H2].
  destruct Hin as [<-|Hin]; [exact H1 | apply H2; exact Hin].
Qed.

Lemma count_triples_add_le :
  forall Nx Na Nb (p q r : nat -> nat -> nat -> bool),
    (forall x a b, x < Nx -> a < Na -> b < Nb ->
       (if p x a b then 1 else 0) + (if q x a b then 1 else 0) <= (if r x a b then 1 else 0)) ->
    count_triples Nx Na Nb p + count_triples Nx Na Nb q <= count_triples Nx Na Nb r.
Proof.
  intros Nx Na Nb p q r H. unfold count_triples.
  rewrite <- nsum_add. apply nsum_le. intros x Hx.
  rewrite <- nsum_add. apply nsum_le. intros a Ha.
  rewrite <- nsum_add. apply nsum_le. intros b Hb.
  apply H; assumption.
Qed.

Lemma list_sum_skip_one :
  forall x c n k,
    list_sum (map (fun a => if x =? a then 0 else c) (seq k n)) =
    (if (k <=? x) && (x <? k + n) then n - 1 else n) * c.
Proof.
  intros x c. induction n as [|n IH]; intros k.
  - simpl. destruct ((k <=? x) && (x <? k + 0)); reflexivity.
  - replace (list_sum (map (fun a => if x =? a then 0 else c) (seq k (S n))))
      with ((if x =? k then 0 else c) +
            list_sum (map (fun a => if x =? a then 0 else c) (seq (S k) n)))
      by reflexivity.
    rewrite IH.
    destruct (Nat.eqb_spec x k), (Nat.leb_spec (S k) x), (Nat.leb_spec k x),
      (Nat.ltb_spec x (S k + n)), (Nat.ltb_spec x (k + S n));
      cbn [andb]; try lia; try (destruct n; [lia | simpl; lia]).
Qed.

Lemma count_off_diagonal :
  forall Na Nb,
    count_triples Na Na Nb (fun x a _ => negb (true && (x =? a))) = Na * (Na - 1) * Nb.
Proof.
  intros Na Nb. unfold count_triples.
  rewrite (@nsum_ext Na _ (fun _ => (Na - 1) * Nb)).
  - rewrite nsum_const. lia.
  - intros x Hx.
    rewrite (@nsum_ext Na _ (fun a => if x =? a then 0 else Nb)).
    + unfold nsum. rewrite list_sum_skip_one.
      replace ((0 <=? x) && (x <? 0 + Na)) with true; [reflexivity|].
      symmetry. apply andb_true_iff. split; [apply Nat.leb_le | apply Nat.ltb_lt]; lia.
    + intros a Ha. cbn [andb]. destruct (x =? a); cbn [negb].
      * rewrite nsum_const. lia.
      * rewrite nsum_const. lia.
Qed.

Lemma count_all_triples :
  forall Nx Na Nb,
    count_triples Nx Na Nb (fun x a _ => negb (false && (x =? a))) = Nx * Na * Nb.
Proof.
  intros. unfold count_triples. cbn [andb negb].
  rewrite (@nsum_ext Nx _ (fun _ => Na * Nb)).
  - rewrite nsum_const. lia.
  - intros x _. rewrite (@nsum_ext Na _ (fun _ => Nb)).
    + apply nsum_const.
    + intros a _. rewrite nsum_const. lia.
Qed.

(** Wins and ties together never exceed the number of triples off the
    excluded diagonal. *)
Lemma spec_counts_bound :
  forall symmetric dxa dxb Nx Na Nb,
    wf dxb -> size dxb = [Nx; Nb] ->
    spec_wins symmetric dxa dxb Nx Na Nb + spec_ties symmetric dxa dxb Nx Na Nb <=
    count_triples Nx Na Nb (fun x a _ => negb (symmetric && (x =? a))).
Proof.
  intros symmetric dxa dxb Nx Na Nb Hwf Hb. unfold spec_wins, spec_ties.
  apply count_triples_add_le. intros x a b Hx Ha Hxb.
  unfold spec_cost_xa. destruct (symmetric && (x =? a)); cbn [negb].
  - assert (Hle : (tget dxb [x; b] <= largest dxb)%Q).
    { apply largest_ge. apply tget_in; [exact Hwf|]. rewrite Hb. cbn [in_range]. tauto. }
    rewrite (Qltb_above Hle), (Qeqb_above Hle). lia.
  - destruct (Qltb (tget dxa [x; a]) (tget dxb [x; b])) eqn:E.
    + rewrite (Qltb_Qeqb_exclusive _ _ E). lia.
    + destruct (Qeqb (tget dxa [x; a]) (tget dxb [x; b])); lia.
Qed.

Lemma score_div_range :
  forall (w t d : nat),
    w + t <= d -> 0 < d ->
    exists q,
      score_div (inject_Z (Z.of_nat w) + (1 # 2) * inject_Z (Z.of_nat t))%Q (Z.of_nat d) = SFin q /\
      (0 <= q <= 1)%Q.
Proof.
  intros w t d Hle Hpos. unfold score_div.
  replace (Z.of_nat d =? 0)%Z with false by (symmetry; apply Z.eqb_neq; lia).
  eexists. split; [reflexivity|].
  assert (Hw : (0 <= inject_Z (Z.of_nat w))%Q).
  { change 0%Q with (inject_Z 0). rewrite <- Zle_Qle. lia. }
  assert (Ht : (0 <= inject_Z (Z.of_nat t))%Q).
  { change 0%Q with (inject_Z 0). rewrite <- Zle_Qle. lia. }
  assert (Hd : (0 < inject_Z (Z.of_nat d))%Q).
  { change 0%Q with (inject_Z 0). rewrite <- Zlt_Qlt. lia. }
  assert (Hs : (inject_Z (Z.of_nat w) + inject_Z (Z.of_nat t) <= inject_Z (Z.of_nat d))%Q).
  { rewrite <- inject_Z_plus, <- Zle_Qle. lia. }
  split.
  - apply Qle_shift_div_l; [exact Hd|]. lra.
  - apply Qle_shift_div_r; [exact Hd|]. lra.
Qed.

Lemma spec_theta_range :
  forall symmetric dxa dxb Nx Na Nb,
    wf dxb -> size dxb = [Nx; Nb] ->
    (0 < spec_n_pos symmetric Nx Na * Z.of_nat Nb)%Z ->
    (symmetric = true -> Na = Nx) ->
    exists q, spec_theta symmetric dxa dxb Nx Na Nb = SFin q /\ (0 <= q <= 1)%Q.
Proof.
  intros symmetric dxa dxb Nx Na Nb Hwf Hb Hpos Hsq.
  pose proof (@spec_counts_bound symmetric dxa dxb Nx Na Nb Hwf Hb) as Hbound.
  unfold spec_theta.
  assert (Hd : exists d, (spec_n_pos symmetric Nx Na * Z.of_nat Nb)%Z = Z.of_nat d /\
             count_triples Nx Na Nb (fun x a _ => negb (symmetric && (x =? a))) = d).
  { destruct symmetric.
    - specialize (Hsq eq_refl). subst Nx. rewrite count_off_diagonal.
      exists (Na * (Na - 1) * Nb). split; [|reflexivity].
      unfold spec_n_pos in *. destruct Na as [|Na]; [simpl in Hpos; lia|].
      rewrite !Nat2Z.inj_mul. f_equal. f_equal. lia.
    - rewrite count_all_triples. exists (Nx * Na * Nb). split; [|reflexivity].
      unfold spec_n_pos. rewrite !Nat2Z.inj_mul. ring. }
  destruct Hd as (d & Ed & Ec). rewrite Ed. rewrite Ec in Hbound.
  apply score_div_range; [exact Hbound | lia].
Qed.

(** ** The validity check *)

Lemma check_ranks_differ :
  forall (T : Type) (a b x : tensor T),
    rank a <> rank b \/ rank a <> rank x ->
    check_dtw_group_validity a b x = Err AssertionError.
Proof.
  intros T a b x H. unfold check_dtw_group_validity.
  destruct (Nat.eqb_spec (rank a) (rank b)) as [Eab|Nab]; cbn [rassert rbind]; [|reflexivity].
  destruct (Nat.eqb_spec (rank a) (rank x)) as [Eax|Nax]; cbn [rassert rbind]; [|reflexivity].
  tauto.
Qed.

Lemma check_features :
  forall (T : Type) (a b x : tensor T) da db dx,
    rank a = rank b -> rank a = rank x ->
    size_at a 2 = Ok da -> size_at b 2 = Ok db -> size_at x 2 = Ok dx ->
    check_dtw_group_validity a b x =
    if (da =? dx) && (da =? db) then Ok tt else Err AssertionError.
Proof.
  intros T a b x da db dx Eab Eax Ha Hb Hx. unfold check_dtw_group_validity.
  rewrite Eab at 1. rewrite Eax. rewrite !Nat.eqb_refl. cbn [rassert rbind].
  rewrite Ha, Hb, Hx. cbn [rbind].
  destruct (da =? dx); cbn [rassert rbind andb]; [|reflexivity].
  destruct (da =? db); reflexivity.
Qed.

(** ** Runs of the scorer *)

Section ScorerRuns.

Variable T : Type.
Variable dtw_batch :
  tensor T -> tensor T -> tensor Z -> tensor Z -> tensor T -> bool -> bool ->
  result (tensor Q).

Lemma get_theta_invalid :
  forall a b x sa sb sx (df : distance_fn T) symmetric e tr,
    check_dtw_group_validity a b x = Err e ->
    get_theta_group_dtw dtw_batch a b x sa sb sx df symmetric tr = (Err e, tr).
Proof.
  intros. unfold get_theta_group_dtw, bind, lift. rewrite H. reflexivity.
Qed.

Lemma get_theta_run :
  forall a b x sa sb sx (df : distance_fn T) symmetric tr0 tr1 tr2 dxb dxa,
    check_dtw_group_validity a b x = Ok tt ->
    get_distance_group_dtw dtw_batch x b sx sb false false df tr0 = (Ok dxb, tr1) ->
    get_distance_group_dtw dtw_batch x a sx sa symmetric symmetric df tr1 = (Ok dxa, tr2) ->
    get_theta_group_dtw dtw_batch a b x sa sb sx df symmetric tr0 =
    (theta_of_costs dxa dxb symmetric, tr2).
Proof.
  intros a b x sa sb sx df symmetric tr0 tr1 tr2 dxb dxa Hc Hb Ha.
  unfold get_theta_group_dtw, bind, lift. rewrite Hc, Hb, Ha. reflexivity.
Qed.

(** The wrapper around the aligner, case by case on the two length checks. *)
Lemma get_distance_group_dtw_first_mismatch :
  forall a1 a2 size1 size2 ignore_diag symmetric (df : distance_fn T) N1 S1 D1 N2 S2 D2 n1 tr,
    size a1 = [N1; S1; D1] -> size a2 = [N2; S2; D2] ->
    size_at size1 0 = Ok n1 -> n1 <> N1 ->
    get_distance_group_dtw dtw_batch a1 a2 size1 size2 ignore_diag symmetric df tr =
    (Err AssertionError,
     tr ++ [EvPrint (size a1) (size size1); EvPrint (size a2) (size size2)]).
Proof.
  intros a1 a2 size1 size2 ignore_diag symmetric df N1 S1 D1 N2 S2 D2 n1 tr E1 E2 Hn1 Hne.
  unfold get_distance_group_dtw, massert, bind, lift, emit.
  rewrite E1, E2. cbn [unpack3]. rewrite Hn1.
  replace (n1 =? N1) with false by (symmetry; apply Nat.eqb_neq; exact Hne).
  cbn [negb rassert]. rewrite <- app_assoc. reflexivity.
Qed.

Lemma get_distance_group_dtw_second_mismatch :
  forall a1 a2 size1 size2 ignore_diag symmetric (df : distance_fn T) N1 S1 D1 N2 S2 D2 n2 tr,
    size a1 = [N1; S1; D1] -> size a2 = [N2; S2; D2] ->
    size_at size1 0 = Ok N1 -> size_at size2 0 = Ok n2 -> n2 <> N2 ->
    get_distance_group_dtw dtw_batch a1 a2 size1 size2 ignore_diag symmetric df tr =
    (Err AssertionError, tr).
Proof.
  intros a1 a2 size1 size2 ignore_diag symmetric df N1 S1 D1 N2 S2 D2 n2 tr E1 E2 Hn1 Hn2 Hne.
  unfold get_distance_group_dtw, massert, bind, lift, emit, ret.
  rewrite E1, E2. cbn [unpack3]. rewrite Hn1, Nat.eqb_refl. cbn [negb rassert].
  rewrite Hn2.
  replace (n2 =? N2) with false by (symmetry; apply Nat.eqb_neq; exact Hne).
  reflexivity.
Qed.

Lemma get_distance_group_dtw_matching :
  forall a1 a2 size1 size2 ignore_diag symmetric (df : distance_fn T) N1 S1 D1 N2 S2 D2 tr,
    size a1 = [N1; S1; D1] -> size a2 = [N2; S2; D2] ->
    size_at size1 0 = Ok N1 -> size_at size2 0 = Ok N2 ->
    get_distance_group_dtw dtw_batch a1 a2 size1 size2 ignore_diag symmetric df tr =
    match df a1 a2 with
    | inl e => (Err e, tr ++ [EvDistance])
    | inr distance_mat =>
        (dtw_batch a1 a2 size1 size2 distance_mat ignore_diag symmetric,
         tr ++ [EvDistance; EvAligner ignore_diag symmetric])
    end.
Proof.
  intros a1 a2 size1 size2 ignore_diag symmetric df N1 S1 D1 N2 S2 D2 tr E1 E2 Hn1 Hn2.
  unfold get_distance_group_dtw, massert, bind, lift, emit, ret.
  rewrite E1, E2. cbn [unpack3]. rewrite Hn1, Hn2, !Nat.eqb_refl. cbn [negb rassert].
  destruct (df a1 a2); [reflexivity|]. rewrite <- app_assoc. reflexivity.
Qed.

End ScorerRuns.

(** ** Stand-ins for the collaborators, for concrete runs

    Sequences of one timestep with one feature. The distance of two
    sequences is the absolute difference of their values, and aligning two
    such sequences costs exactly that distance; with [ignore_diag] the
    aligner leaves the diagonal at its initial zero. *)

Definition toy_distance : distance_fn Q := fun a1 a2 =>
  let? (N1, S1, _) := unpack3 (size a1) in
  let? (N2, S2, _) := unpack3 (size a2) in
  Ok (tabulate [N1; N2; S1; S2]
        (fun idx =>
           match idx with
           | [i; j; s; t] => Qred (Qabs (tget a1 [i; s; 0] - tget a2 [j; t; 0]))
           | _ => 0%Q
           end)).

Definition toy_dtw_batch (x y : tensor Q) (sx sy : tensor Z) (dist_mat : tensor Q)
  (ignore_diag symmetric : bool) : result (tensor Q) :=
  match size dist_mat with
  | Nx :: Ny :: _ =>
      Ok (tabulate [Nx; Ny]
            (fun idx =>
               match idx with
               | [i; j] => if ignore_diag && (i =? j) then 0%Q else tget dist_mat [i; j; 0; 0]
               | _ => 0%Q
               end))
  | _ => Err IndexError
  end.

(** A batch of one-timestep, one-feature sequences and its length vector. *)
Definition batch1 (values : list Q) : tensor Q :=
  mkTensor [List.length values; 1; 1] values.

Definition lengths1 (n : nat) : tensor Z := mkTensor [n] (repeat 1%Z n).

Definition zeros (sh : list nat) : tensor Q := tabulate sh (fun _ => 0%Q).

(** ** Claims on the triplet theta scorer *)

Section ScorerClaims.

Variable T : Type.
Variable dtw_batch :
  tensor T -> tensor T -> tensor Z -> tensor Z -> tensor T -> bool -> bool ->
  result (tensor Q).

(** C1 (amended). When the validity check passes and the two alignments
    return cost matrices [dxb] of shape (Nx, Nb) and [dxa] of shape
    (Nx, Na) (in symmetric mode with Na <= Nx and a non-empty [dxb], so
    that the diagonal loop runs), the scorer returns exactly
    (wins + 0.5 * ties) / (n_pos * Nb): wins and ties count the index
    triples (x, a, b) with dxa[x,a] < dxb[x,b] and dxa[x,a] == dxb[x,b],
    the diagonal of [dxa] holding max(dxb) + 1 in symmetric mode;
    n_pos = Na * (Na - 1) when symmetric and Na * Nx otherwise. The value
    lies in [0, 1] when n_pos * Nb is positive and, in symmetric mode,
    Na = Nx. *)
Theorem theta_group_score :
  forall (a b x : tensor T) sa sb sx (df : distance_fn T) symmetric
         tr0 tr1 tr2 dxb dxa Nx Na Nb,
    check_dtw_group_validity a b x = Ok tt ->
    get_distance_group_dtw dtw_batch x b sx sb false false df tr0 = (Ok dxb, tr1) ->
    get_distance_group_dtw dtw_batch x a sx sa symmetric symmetric df tr1 = (Ok dxa, tr2) ->
    wf dxa -> wf dxb -> size dxa = [Nx; Na] -> size dxb = [Nx; Nb] ->
    (symmetric = true -> Na <= Nx /\ 0 < Nx * Nb) ->
    get_theta_group_dtw dtw_batch a b x sa sb sx df symmetric tr0 =
      (Ok (spec_theta symmetric dxa dxb Nx Na Nb), tr2) /\
    ((0 < spec_n_pos symmetric Nx Na * Z.of_nat Nb)%Z ->
     (symmetric = true -> Na = Nx) ->
     exists q, spec_theta symmetric dxa dxb Nx Na Nb = SFin q /\ (0 <= q <= 1)%Q).
Proof.
  intros a b x sa sb sx df symmetric tr0 tr1 tr2 dxb dxa Nx Na Nb
    Hc Hb Ha Hwa Hwb Hsa Hsb Hsym.
  split.
  - rewrite (@get_theta_run T dtw_batch a b x sa sb sx df symmetric tr0 tr1 tr2 dxb dxa Hc Hb Ha).
    f_equal. destruct symmetric.
    + destruct (Hsym eq_refl) as [Hle Hpos].
      destruct (@tmax_nonempty dxb Hwb) as [m Hm].
      { rewrite Hsb. simpl. lia. }
      apply (@theta_of_costs_symmetric dxa dxb Nx Na Nb m); assumption.
    + apply theta_of_costs_asymmetric; assumption.
  - intros Hpos Hsq. apply spec_theta_range; assumption.
Qed.

(** C2. In symmetric mode with Na = Nx, once the largest entry [m] of
    [dxb] is known, the loop overwrites every diagonal entry of [dxa] with
    m + 1; for every row i and every b neither dxa[i,i] < dxb[i,b] nor
    dxa[i,i] == dxb[i,b] holds, and the wins and ties of the score are
    those of the pairs off the diagonal. *)
Theorem diagonal_never_scores :
  forall dxa dxb Nx Na Nb m,
    wf dxa -> wf dxb -> size dxa = [Nx; Na] -> size dxb = [Nx; Nb] ->
    Na = Nx -> tmax dxb = Ok m ->
    exists dxa',
      overwrite_diagonal (seq 0 Na) (m + 1)%Q dxa = Ok dxa' /\
      (forall i b, i < Na -> b < Nb ->
         tget dxa' [i; i] = (m + 1)%Q /\
         Qltb (tget dxa' [i; i]) (tget dxb [i; b]) = false /\
         Qeqb (tget dxa' [i; i]) (tget dxb [i; b]) = false) /\
      spec_wins true dxa dxb Nx Na Nb =
        count_triples Nx Na Nb
          (fun x a b => negb (x =? a) && Qltb (tget dxa [x; a]) (tget dxb [x; b])) /\
      spec_ties true dxa dxb Nx Na Nb =
        count_triples Nx Na Nb
          (fun x a b => negb (x =? a) && Qeqb (tget dxa [x; a]) (tget dxb [x; b])) /\
      theta_of_costs dxa dxb true = Ok (spec_theta true dxa dxb Nx Na Nb).
Proof.
  intros dxa dxb Nx Na Nb m Hwa Hwb Hsa Hsb Hsq Hm. subst Nx.
  destruct (@overwrite_diagonal_seq Na 0 (m + 1)%Q dxa Na Na Hwa Hsa)
    as (dxa' & E & Hsz & Hwf' & G); try lia.
  assert (Hle : forall x b, x < Na -> b < Nb -> (tget dxb [x; b] <= m)%Q).
  { intros x b Hx Hb. apply (tmax_ge _ Hm). apply tget_in; [exact Hwb|].
    rewrite Hsb. cbn [in_range]. tauto. }
  exists dxa'. split; [exact E|]. split; [|split; [|split]].
  - intros i b Hi Hb.
    assert (Ed : tget dxa' [i; i] = (m + 1)%Q).
    { rewrite G by assumption. rewrite Nat.eqb_refl.
      replace (0 <=? i) with true by (symmetry; apply Nat.leb_le; lia).
      replace (i <? 0 + Na) with true by (symmetry; apply Nat.ltb_lt; lia).
      reflexivity. }
    rewrite Ed. split; [reflexivity|]. split.
    + apply Qltb_above. apply Hle; assumption.
    + apply Qeqb_above. apply Hle; assumption.
  - unfold spec_wins. apply count_triples_ext. intros x a b Hx Ha Hb.
    unfold spec_cost_xa. cbn [andb]. rewrite <- (tmax_largest _ Hm).
    destruct (x =? a); cbn [negb andb]; [|reflexivity].
    apply Qltb_above. apply Hle; assumption.
  - unfold spec_ties. apply count_triples_ext. intros x a b Hx Ha Hb.
    unfold spec_cost_xa. cbn [andb]. rewrite <- (tmax_largest _ Hm).
    destruct (x =? a); cbn [negb andb]; [|reflexivity].
    apply Qeqb_above. apply Hle; assumption.
  - apply (@theta_of_costs_symmetric dxa dxb Na Na Nb m); try assumption. lia.
Qed.

(** C6 (amended). When the ranks of A, B and X are not all the same, and
    when they are the same, at least 3, and the feature dimensions (the
    sizes of axis 2) are not all the same, the scorer fails with the
    assertion error of its validity check and the trace is left as it was:
    the distance function and the aligner have not been called. When the
    ranks agree, are at least 3, and the feature dimensions agree, the
    check passes. *)
Theorem validity_check_guards_scorer :
  forall (a b x : tensor T) sa sb sx (df : distance_fn T) symmetric tr,
    (rank a <> rank b \/ rank a <> rank x ->
     get_theta_group_dtw dtw_batch a b x sa sb sx df symmetric tr =
       (Err AssertionError, tr)) /\
    (forall da db dx,
       rank a = rank b -> rank a = rank x ->
       size_at a 2 = Ok da -> size_at b 2 = Ok db -> size_at x 2 = Ok dx ->
       (da <> dx \/ da <> db ->
        get_theta_group_dtw dtw_batch a b x sa sb sx df symmetric tr =
          (Err AssertionError, tr)) /\
       (da = dx -> da = db -> check_dtw_group_validity a b x = Ok tt)).
Proof.
  intros a b x sa sb sx df symmetric tr. split.
  - intros H. apply (@get_theta_invalid T dtw_batch). apply check_ranks_differ. exact H.
  - intros da db dx Eab Eax Ha Hb Hx. split.
    + intros H. apply (@get_theta_invalid T dtw_batch).
      rewrite (@check_features T a b x da db dx Eab Eax Ha Hb Hx).
      destruct (Nat.eqb_spec da dx), (Nat.eqb_spec da db); cbn [andb];
        try reflexivity. tauto.
    + intros E1 E2. rewrite (@check_features T a b x da db dx Eab Eax Ha Hb Hx).
      subst. rewrite !Nat.eqb_refl. reflexivity.
Qed.

(** The two length checks of the wrapper. When the length vector of the
    first batch has not as many entries as the batch has sequences, the
    sizes of both batches and of both length vectors are printed and then
    the assertion fails; a mismatch of the second length vector alone
    fails on its assertion and prints nothing. In both cases neither the
    distance function nor the aligner has been called. *)
Lemma length_mismatch_fails_hard :
  forall a1 a2 size1 size2 ignore_diag symmetric (df : distance_fn T)
         N1 S1 D1 N2 S2 D2 n1 n2 tr,
    size a1 = [N1; S1; D1] -> size a2 = [N2; S2; D2] ->
    size_at size1 0 = Ok n1 -> size_at size2 0 = Ok n2 ->
    (n1 <> N1 ->
     get_distance_group_dtw dtw_batch a1 a2 size1 size2 ignore_diag symmetric df tr =
       (Err AssertionError,
        tr ++ [EvPrint (size a1) (size size1); EvPrint (size a2) (size size2)])) /\
    (n1 = N1 -> n2 <> N2 ->
     get_distance_group_dtw dtw_batch a1 a2 size1 size2 ignore_diag symmetric df tr =
       (Err AssertionError, tr)).
Proof.
  intros a1 a2 size1 size2 ignore_diag symmetric df N1 S1 D1 N2 S2 D2 n1 n2 tr
    E1 E2 Hn1 Hn2. split.
  - intros Hne.
    apply (@get_distance_group_dtw_first_mismatch T dtw_batch a1 a2 size1 size2
             ignore_diag symmetric df N1 S1 D1 N2 S2 D2 n1 tr E1 E2 Hn1 Hne).
  - intros -> Hne.
    apply (@get_distance_group_dtw_second_mismatch T dtw_batch a1 a2 size1 size2
             ignore_diag symmetric df N1 S1 D1 N2 S2 D2 n2 tr E1 E2 Hn1 Hn2 Hne).
Qed.

(** C10 (amended). Symmetric mode never compares Na with Nx. With a
    non-empty [dxb] (Nx and Nb positive): when Na > Nx the diagonal loop
    leaves the (Nx, Na) matrix and the evaluation fails with an index error,
    no score being produced; when Na <= Nx it returns a score, also for
    Na <> Nx, with n_pos = Na * (Na - 1). *)
Theorem symmetric_mode_size_mismatch :
  forall (a b x : tensor T) sa sb sx (df : distance_fn T) tr0 tr1 tr2 dxb dxa Nx Na Nb,
    check_dtw_group_validity a b x = Ok tt ->
    get_distance_group_dtw dtw_batch x b sx sb false false df tr0 = (Ok dxb, tr1) ->
    get_distance_group_dtw dtw_batch x a sx sa true true df tr1 = (Ok dxa, tr2) ->
    wf dxa -> wf dxb -> size dxa = [Nx; Na] -> size dxb = [Nx; Nb] ->
    0 < Nx -> 0 < Nb ->
    (Nx < Na ->
     get_theta_group_dtw dtw_batch a b x sa sb sx df true tr0 = (Err IndexError, tr2)) /\
    (Na <= Nx ->
     get_theta_group_dtw dtw_batch a b x sa sb sx df true tr0 =
       (Ok (score_div
              (inject_Z (Z.of_nat (spec_wins true dxa dxb Nx Na Nb)) +
               (1 # 2) * inject_Z (Z.of_nat (spec_ties true dxa dxb Nx Na Nb)))%Q
              (Z.of_nat Na * (Z.of_nat Na - 1) * Z.of_nat Nb)%Z),
        tr2)).
Proof.
  intros a b x sa sb sx df tr0 tr1 tr2 dxb dxa Nx Na Nb
    Hc Hb Ha Hwa Hwb Hsa Hsb Hx Hnb.
  rewrite (@get_theta_run T dtw_batch a b x sa sb sx df true tr0 tr1 tr2 dxb dxa Hc Hb Ha).
  destruct (@tmax_nonempty dxb Hwb) as [m Hm].
  { rewrite Hsb. simpl. nia. }
  split; intros Hcmp; f_equal.
  - apply (@theta_of_costs_overrun dxa dxb Nx Na Nb m); assumption.
  - apply (@theta_of_costs_symmetric dxa dxb Nx Na Nb m); assumption.
Qed.

End ScorerClaims.

(** ** Concrete runs of the scorer *)

Definition ex_x : tensor Q := batch1 [0%Q; 10%Q].
Definition ex_b : tensor Q := batch1 [3%Q; 100%Q].
Definition ex_dxb : tensor Q := mkTensor [2; 2] [3%Q; 100%Q; 7%Q; 90%Q].
Definition ex_dxa : tensor Q := mkTensor [2; 2] [0%Q; 10%Q; 10%Q; 0%Q].
Definition ex_trace : trace :=
  [EvDistance; EvAligner false false; EvDistance; EvAligner true true].

Lemma theta_group_score_witness :
  get_theta_group_dtw toy_dtw_batch ex_x ex_b ex_x
    (lengths1 2) (lengths1 2) (lengths1 2) toy_distance true [] =
    (Ok (spec_theta true ex_dxa ex_dxb 2 2 2), ex_trace) /\
  ((0 < spec_n_pos true 2 2 * Z.of_nat 2)%Z ->
   (true = true -> 2 = 2) ->
   exists q, spec_theta true ex_dxa ex_dxb 2 2 2 = SFin q /\ (0 <= q <= 1)%Q).
Proof.
  apply (@theta_group_score Q toy_dtw_batch ex_x ex_b ex_x
           (lengths1 2) (lengths1 2) (lengths1 2) toy_distance true
           [] [EvDistance; EvAligner false false] ex_trace ex_dxb ex_dxa 2 2 2);
    try reflexivity.
  intros _. split; lia.
Defined.

(** C1 as stated fails: in symmetric mode with three X sequences and two A
    sequences the score is 2, and with one sequence in A and X the division
    is 0 / 0. *)
Lemma theta_score_outside_unit_interval :
  (exists q,
     fst (get_theta_group_dtw toy_dtw_batch (batch1 [5%Q; 6%Q]) (batch1 [100%Q])
            (batch1 [0%Q; 10%Q; 20%Q]) (lengths1 2) (lengths1 1) (lengths1 3)
            toy_distance true []) = Ok (SFin q) /\ (1 < q)%Q) /\
  fst (get_theta_group_dtw toy_dtw_batch (batch1 [0%Q]) (batch1 [1%Q]) (batch1 [0%Q])
         (lengths1 1) (lengths1 1) (lengths1 1) toy_distance true []) = Ok SNaN.
Proof.
  split.
  - exists (8 # 4)%Q. split; reflexivity.
  - reflexivity.
Qed.

Lemma diagonal_never_scores_witness :
  exists dxa',
    overwrite_diagonal (seq 0 2) (100 + 1)%Q ex_dxa = Ok dxa' /\
    (forall i b, i < 2 -> b < 2 ->
       tget dxa' [i; i] = (100 + 1)%Q /\
       Qltb (tget dxa' [i; i]) (tget ex_dxb [i; b]) = false /\
       Qeqb (tget dxa' [i; i]) (tget ex_dxb [i; b]) = false) /\
    spec_wins true ex_dxa ex_dxb 2 2 2 =
      count_triples 2 2 2
        (fun x a b => negb (x =? a) && Qltb (tget ex_dxa [x; a]) (tget ex_dxb [x; b])) /\
    spec_ties true ex_dxa ex_dxb 2 2 2 =
      count_triples 2 2 2
        (fun x a b => negb (x =? a) && Qeqb (tget ex_dxa [x; a]) (tget ex_dxb [x; b])) /\
    theta_of_costs ex_dxa ex_dxb true = Ok (spec_theta true ex_dxa ex_dxb 2 2 2).
Proof.
  apply (@diagonal_never_scores ex_dxa ex_dxb 2 2 2 100%Q); reflexivity.
Defined.

Lemma validity_check_guards_scorer_witness :
  get_theta_group_dtw toy_dtw_batch (zeros [2; 3]) (zeros [2; 1; 3]) (zeros [2; 1; 3])
    (lengths1 2) (lengths1 2) (lengths1 2) toy_distance false [] =
    (Err AssertionError, []) /\
  get_theta_group_dtw toy_dtw_batch (zeros [2; 1; 3]) (zeros [2; 1; 3]) (zeros [2; 1; 4])
    (lengths1 2) (lengths1 2) (lengths1 2) toy_distance false [] =
    (Err AssertionError, []) /\
  check_dtw_group_validity (zeros [2; 1; 3]) (zeros [1; 1; 3]) (zeros [4; 2; 3]) = Ok tt.
Proof.
  split; [|split].
  - apply (proj1 (@validity_check_guards_scorer Q toy_dtw_batch
                    (zeros [2; 3]) (zeros [2; 1; 3]) (zeros [2; 1; 3])
                    (lengths1 2) (lengths1 2) (lengths1 2) toy_distance false [])).
    left. vm_compute. lia.
  - apply (proj2 (@validity_check_guards_scorer Q toy_dtw_batch
                    (zeros [2; 1; 3]) (zeros [2; 1; 3]) (zeros [2; 1; 4])
                    (lengths1 2) (lengths1 2) (lengths1 2) toy_distance false [])
             3 3 4); try reflexivity.
    left. lia.
  - apply (proj2 (@validity_check_guards_scorer Q toy_dtw_batch
                    (zeros [2; 1; 3]) (zeros [1; 1; 3]) (zeros [4; 2; 3])
                    (lengths1 2) (lengths1 1) (lengths1 4) toy_distance false [])
             3 3 3); reflexivity.
Defined.

(** C6 as stated fails below rank 3: three arrays of the same shape (2, 3)
    agree in rank and in every dimension, yet the check does not pass, and
    what it raises is the index error of [size(2)], not an assertion error. *)
Lemma validity_check_below_rank_three :
  rank (zeros [2; 3]) = 2 /\
  check_dtw_group_validity (zeros [2; 3]) (zeros [2; 3]) (zeros [2; 3]) = Err IndexError /\
  get_theta_group_dtw toy_dtw_batch (zeros [2; 3]) (zeros [2; 3]) (zeros [2; 3])
    (lengths1 2) (lengths1 2) (lengths1 2) toy_distance false [] = (Err IndexError, []).
Proof.
  repeat split.
Qed.

(** C9. A mismatch between a length vector and its batch is to be reported
    before the assertion fires, for either batch. Here the length vector of
    the second batch has one entry for two sequences while the first pair
    agrees: the call raises the assertion error and the trace is empty, so
    nothing has been printed. The diagnostic is tied to the first length
    check only. *)
Lemma second_length_mismatch_prints_nothing :
  size (batch1 [5%Q; 6%Q]) = [2; 1; 1] /\
  size_at (lengths1 1) 0 = Ok 1 /\
  get_distance_group_dtw toy_dtw_batch (batch1 [0%Q]) (batch1 [5%Q; 6%Q])
    (lengths1 1) (lengths1 1) false false toy_distance [] =
    (Err AssertionError, []).
Proof.
  repeat split.
Qed.

Definition ex_tall_dxa : tensor Q := mkTensor [3; 2] [0%Q; 6%Q; 5%Q; 0%Q; 15%Q; 14%Q].
Definition ex_tall_dxb : tensor Q := mkTensor [3; 1] [100%Q; 90%Q; 80%Q].
Definition ex_wide_dxa : tensor Q := mkTensor [2; 3] [0%Q; 1%Q; 2%Q; 3%Q; 0%Q; 1%Q].
Definition ex_wide_dxb : tensor Q := mkTensor [2; 1] [1%Q; 2%Q].

Lemma symmetric_mode_size_mismatch_witness :
  get_theta_group_dtw toy_dtw_batch (batch1 [0%Q; 1%Q; 2%Q]) (batch1 [1%Q])
    (batch1 [0%Q; 3%Q]) (lengths1 3) (lengths1 1) (lengths1 2) toy_distance true [] =
    (Err IndexError, ex_trace) /\
  get_theta_group_dtw toy_dtw_batch (batch1 [5%Q; 6%Q]) (batch1 [100%Q])
    (batch1 [0%Q; 10%Q; 20%Q]) (lengths1 2) (lengths1 1) (lengths1 3) toy_distance true [] =
    (Ok (score_div
           (inject_Z (Z.of_nat (spec_wins true ex_tall_dxa ex_tall_dxb 3 2 1)) +
            (1 # 2) * inject_Z (Z.of_nat (spec_ties true ex_tall_dxa ex_tall_dxb 3 2 1)))%Q
           (Z.of_nat 2 * (Z.of_nat 2 - 1) * Z.of_nat 1)%Z),
     ex_trace).
Proof.
  split.
  - apply (proj1 (@symmetric_mode_size_mismatch Q toy_dtw_batch
                    (batch1 [0%Q; 1%Q; 2%Q]) (batch1 [1%Q]) (batch1 [0%Q; 3%Q])
                    (lengths1 3) (lengths1 1) (lengths1 2) toy_distance
                    [] [EvDistance; EvAligner false false] ex_trace
                    ex_wide_dxb ex_wide_dxa 2 3 1
                    eq_refl eq_refl eq_refl eq_refl eq_refl eq_refl eq_refl
                    ltac:(lia) ltac:(lia))).
    lia.
  - apply (proj2 (@symmetric_mode_size_mismatch Q toy_dtw_batch
                    (batch1 [5%Q; 6%Q]) (batch1 [100%Q]) (batch1 [0%Q; 10%Q; 20%Q])
                    (lengths1 2) (lengths1 1) (lengths1 3) toy_distance
                    [] [EvDistance; EvAligner false false] ex_trace
                    ex_tall_dxb ex_tall_dxa 3 2 1
                    eq_refl eq_refl eq_refl eq_refl eq_refl eq_refl eq_refl
                    ltac:(lia) ltac:(lia))).
    lia.
Defined.

(** C10 as stated fails on empty batches: with no X sequence and one A
    sequence (Na > Nx) the error is the one of [max] on an empty tensor, not
    an index error; with Na <= Nx and no B sequence the run fails too. *)
Lemma symmetric_mode_empty_batches :
  fst (get_theta_group_dtw toy_dtw_batch (batch1 [0%Q]) (batch1 [1%Q]) (batch1 [])
         (lengths1 1) (lengths1 1) (lengths1 0) toy_distance true []) =
    Err RuntimeError /\
  fst (get_theta_group_dtw toy_dtw_batch (batch1 [0%Q]) (batch1 []) (batch1 [0%Q])
         (lengths1 1) (lengths1 0) (lengths1 1) toy_distance true []) =
    Err RuntimeError.
Proof.
  split; reflexivity.
Qed.

(** ** The distance-function selector *)

Definition get_distance_function_from_name (name_str : string) : result (distance_fn R) :=
  if String.eqb name_str "euclidian" then Ok get_euclidian_distance_batch
  else if String.eqb name_str "cosine" then Ok get_cosine_distance_batch
  else Err (ValueError "Invalid distance mode").

(** C5. A name other than "euclidian" and "cosine" makes the selector raise
    the invalid-argument error; whatever is sequenced after the selection
    (alignments, the dispatch of workers) is not run and the trace is left as
    it was. The two valid names return their distance function. *)
Theorem selector_rejects_unknown_names :
  forall name_str,
    (name_str <> "euclidian" -> name_str <> "cosine" ->
     get_distance_function_from_name name_str = Err (ValueError "Invalid distance mode") /\
     forall (A : Type) (k : distance_fn R -> M A) tr,
       (df <- lift (get_distance_function_from_name name_str) ;; k df) tr =
       (Err (ValueError "Invalid distance mode"), tr)) /\
    get_distance_function_from_name "euclidian" = Ok get_euclidian_distance_batch /\
    get_distance_function_from_name "cosine" = Ok get_cosine_distance_batch.
Proof.
  intros name_str. split; [|split; reflexivity].
  intros He Hc.
  assert (E : get_distance_function_from_name name_str =
              Err (ValueError "Invalid distance mode")).
  { unfold get_distance_function_from_name.
    destruct (String.eqb_spec name_str "euclidian") as [->|_]; [congruence|].
    destruct (String.eqb_spec name_str "cosine") as [->|_]; [congruence|].
    reflexivity. }
  split; [exact E|].
  intros A k tr. unfold bind, lift. rewrite E. reflexivity.
Qed.

Lemma selector_rejects_unknown_names_witness :
  get_distance_function_from_name "manhattan" = Err (ValueError "Invalid distance mode") /\
  forall (A : Type) (k : distance_fn R -> M A) tr,
    (df <- lift (get_distance_function_from_name "manhattan") ;; k df) tr =
    (Err (ValueError "Invalid distance mode"), tr).
Proof.
  apply (proj1 (selector_rejects_unknown_names "manhattan")); discriminate.
Defined.

(** ** The order of [list.sort()] on the workers' entries *)

Definition scored_unit : Type := (list Z * score)%type.

(** An entry of [worker_data]: [(index, (coords, 1 - theta))]. *)
Definition entry : Type := (nat * scored_unit)%type.

Definition score_eqb (s1 s2 : score) : bool :=
  match s1, s2 with
  | SFin p, SFin q => Qeqb p q
  | SInf n1, SInf n2 => Bool.eqb n1 n2
  | _, _ => false
  end.

Definition score_ltb (s1 s2 : score) : bool :=
  match s1, s2 with
  | SFin p, SFin q => Qltb p q
  | SFin _, SInf negative => negb negative
  | SInf negative, SFin _ => negative
  | SInf n1, SInf n2 => n1 && negb n2
  | _, _ => false
  end.

(** Tuples compare by their first differing component. *)
Fixpoint coords_ltb (c1 c2 : list Z) : bool :=
  match c1, c2 with
  | [], [] => false
  | [], _ :: _ => true
  | _ :: _, [] => false
  | z1 :: r1, z2 :: r2 => if (z1 =? z2)%Z then coords_ltb r1 r2 else (z1 <? z2)%Z
  end.

Fixpoint coords_eqb (c1 c2 : list Z) : bool :=
  match c1, c2 with
  | [], [] => true
  | z1 :: r1, z2 :: r2 => (z1 =? z2)%Z && coords_eqb r1 r2
  | _, _ => false
  end.

Definition scored_unit_eqb (u1 u2 : scored_unit) : bool :=
  coords_eqb (fst u1) (fst u2) && score_eqb (snd u1) (snd u2).

Definition scored_unit_ltb (u1 u2 : scored_unit) : bool :=
  if coords_eqb (fst u1) (fst u2) then score_ltb (snd u1) (snd u2)
  else coords_ltb (fst u1) (fst u2).

Definition entry_ltb (e1 e2 : entry) : bool :=
  if fst e1 =? fst e2 then scored_unit_ltb (snd e1) (snd e2)
  else fst e1 <? fst e2.

(** [list.sort()]: a stable sort that compares with [<] only. *)
Fixpoint insert (e : entry) (l : list entry) : list entry :=
  match l with
  | [] => [e]
  | e' :: l' => if entry_ltb e' e then e' :: insert e l' else e :: e' :: l'
  end.

Definition sort (l : list entry) : list entry := fold_right insert [] l.

(** The result of the entry point: the arguments handed to
    [torch.sparse.FloatTensor]. Row [k] of [coords_list] is the coordinate
    tuple of the value [k]. *)
Record sparse_tensor : Type := mkSparse {
  coords_list : list (list Z);
  data_list : list score;
  board_size : list nat
}.

Record group_iterator (T : Type) : Type := mkIterator {
  units : list (group_unit T);
  get_board_size : list nat
}.

(** ** The worker and the process pool *)

Section Pool.

Variable T : Type.
Variable dtw_batch :
  tensor T -> tensor T -> tensor Z -> tensor Z -> tensor T -> bool -> bool ->
  result (tensor Q).
Variable distance_function : distance_fn T.
Variable symmetric : bool.

(** What [loc_dtw] returns inside a worker process. What the process
    prints stays with it; the progress bar is not represented. *)
Definition loc_dtw_result (g : group_unit T) : result scored_unit :=
  fst (loc_dtw dtw_batch g distance_function symmetric []).

(** [for index, group in enumerate(group_iterator)], from [index] on. *)
Fixpoint worker_loop (worker_rank nprocess index : nat)
  (groups : list (group_unit T)) (worker_data : list entry) : result (list entry) :=
  match groups with
  | [] => Ok worker_data
  | g :: rest =>
      if nprocess =? 0 then Err (Raised "ZeroDivisionError")
      else if negb (index mod nprocess =? worker_rank)
      then worker_loop worker_rank nprocess (S index) rest worker_data
      else
        let? r := loc_dtw_result g in
        worker_loop worker_rank nprocess (S index) rest (worker_data ++ [(index, r)])
  end.

Definition worker (worker_rank nprocess : nat) (git : group_iterator T) :
  result (list entry) :=
  worker_loop worker_rank nprocess 0 (units git) [].

(** The futures of the submitted jobs, by worker rank: [None] while the
    job has not finished. *)
Definition futures : Type := nat -> option (result (list entry)).

Definition pending : futures := fun _ => None.

Definition complete (nprocess : nat) (git : group_iterator T)
  (fut : futures) (worker_rank : nat) : futures :=
  fun r => if r =? worker_rank then Some (worker worker_rank nprocess git) else fut r.

(** The workers finish in the order [completion_order]. *)
Definition run_jobs (nprocess : nat) (git : group_iterator T)
  (completion_order : list nat) : futures :=
  fold_left (complete nprocess git) completion_order pending.

(** [for j in jobs: all_worker_data += j.result()]; [None] when a job
    never finishes. *)
Fixpoint collect (fut : futures) (jobs : list nat) (all_worker_data : list entry) :
  option (result (list entry)) :=
  match jobs with
  | [] => Some (Ok all_worker_data)
  | j :: rest =>
      match fut j with
      | None => None
      | Some (inl e) => Some (Err e)
      | Some (inr l) => collect fut rest (all_worker_data ++ l)
      end
  end.

(** [all_worker_data] after [all_worker_data.sort()]. *)
Definition merged_worker_data (git : group_iterator T) (nprocess : nat)
  (completion_order : list nat) : option (result (list entry)) :=
  if nprocess =? 0 then Some (Err (ValueError "max_workers must be greater than 0"))
  else
    match collect (run_jobs nprocess git completion_order) (seq 0 nprocess) [] with
    | None => None
    | Some (inl e) => Some (Err e)
    | Some (inr all_worker_data) => Some (Ok (sort all_worker_data))
    end.

Definition get_abx_scores_dtw_on_group (git : group_iterator T) (nprocess : nat)
  (completion_order : list nat) : option (result sparse_tensor) :=
  match merged_worker_data git nprocess completion_order with
  | None => None
  | Some (inl e) => Some (Err e)
  | Some (inr all_worker_data) =>
      Some (Ok (mkSparse
                  (map (fun e => fst (snd e)) all_worker_data)
                  (map (fun e => snd (snd e)) all_worker_data)
                  (get_board_size git)))
  end.

(** Sequential evaluation of every unit, in order. *)
Fixpoint eval_all (groups : list (group_unit T)) : result (list scored_unit) :=
  match groups with
  | [] => Ok []
  | g :: rest =>
      let? r := loc_dtw_result g in
      let? rs := eval_all rest in
      Ok (r :: rs)
  end.

End Pool.

(** [(index, scored unit)] pairs in index order, from [k] on. *)
Definition enumerate_from (k : nat) (rs : list scored_unit) : list entry :=
  combine (seq k (List.length rs)) rs.

(** ** Sorting entries with distinct indices *)

Definition index_lt (e1 e2 : entry) : Prop := fst e1 < fst e2.

Lemma entry_ltb_index :
  forall e1 e2, fst e1 <> fst e2 -> entry_ltb e1 e2 = (fst e1 <? fst e2).
Proof.
  intros e1 e2 H. unfold entry_ltb.
  destruct (Nat.eqb_spec (fst e1) (fst e2)); [contradiction | reflexivity].
Qed.

Lemma insert_perm : forall e l, Permutation (insert e l) (e :: l).
Proof.
  intros e l. induction l as [|e' l IH]; simpl; [reflexivity|].
  destruct (entry_ltb e' e); [|reflexivity].
  rewrite IH. apply perm_swap.
Qed.

Lemma sort_perm : forall l, Permutation (sort l) l.
Proof.
  induction l as [|e l IH]; simpl; [reflexivity|].
  rewrite insert_perm. apply perm_skip. exact IH.
Qed.

Lemma insert_sorted :
  forall e l,
    StronglySorted index_lt l ->
    (forall e', In e' l -> fst e' <> fst e) ->
    StronglySorted index_lt (insert e l).
Proof.
  intros e l Hs. induction Hs as [|e' l Hs IH Hall]; intros Hne; simpl.
  - constructor; constructor.
  - assert (Hne' : fst e' <> fst e) by (apply Hne; left; reflexivity).
    rewrite (entry_ltb_index _ _ Hne').
    destruct (Nat.ltb_spec (fst e') (fst e)) as [Hlt|Hge].
    + constructor.
      * apply IH. intros e2 H2. apply Hne. right. exact H2.
      * apply Forall_forall. intros e2 H2.
        apply (Permutation_in _ (insert_perm e l)) in H2.
        destruct H2 as [<-|H2]; [exact Hlt|].
        rewrite Forall_forall in Hall. apply Hall. exact H2.
    + assert (Hlt : fst e < fst e') by lia.
      constructor; [constructor; assumption|].
      constructor; [exact Hlt|].
      apply Forall_forall. intros e2 H2.
      rewrite Forall_forall in Hall. specialize (Hall _ H2).
      unfold index_lt in *. lia.
Qed.

Lemma sort_sorted :
  forall l, NoDup (map fst l) -> StronglySorted index_lt (sort l).
Proof.
  induction l as [|e l IH]; intros Hnd; simpl; [constructor|].
  inversion Hnd as [|k ks Hnotin Hnd']; subst.
  apply insert_sorted; [apply IH; exact Hnd'|].
  intros e' Hin Heq. apply Hnotin.
  apply (Permutation_in _ (sort_perm l)) in Hin.
  rewrite <- Heq. apply in_map. exact Hin.
Qed.

(** Two lists sorted by strictly increasing index with the same elements
    are the same list. *)
Lemma sorted_perm_unique :
  forall l1 l2,
    StronglySorted index_lt l1 -> StronglySorted index_lt l2 ->
    Permutation l1 l2 -> l1 = l2.
Proof.
  induction l1 as [|e1 l1 IH]; intros l2 H1 H2 Hp.
  - apply Permutation_nil in Hp. subst. reflexivity.
  - destruct l2 as [|e2 l2].
    + apply Permutation_sym, Permutation_nil in Hp. discriminate.
    + inversion H1 as [|? ? Hs1 Ha1]; subst.
      inversion H2 as [|? ? Hs2 Ha2]; subst.
      rewrite Forall_forall in Ha1, Ha2.
      assert (E : e1 = e2).
      { assert (In1 : In e1 (e2 :: l2)) by (apply (Permutation_in _ Hp); left; reflexivity).
        assert (In2 : In e2 (e1 :: l1))
          by (apply (Permutation_in _ (Permutation_sym Hp)); left; reflexivity).
        destruct In1 as [E|In1]; [symmetry; exact E|].
        destruct In2 as [E|In2]; [exact E|].
        specialize (Ha1 _ In2). specialize (Ha2 _ In1).
        unfold index_lt in *. lia. }
      subst e2. f_equal. apply IH; try assumption.
      apply Permutation_cons_inv with e1. exact Hp.
Qed.

Lemma enumerate_from_indices :
  forall rs k, map fst (enumerate_from k rs) = seq k (List.length rs).
Proof.
  induction rs as [|r rs IH]; intros k; [reflexivity|].
  unfold enumerate_from in *. simpl. f_equal. apply IH.
Qed.

Lemma enumerate_from_sorted :
  forall rs k, StronglySorted index_lt (enumerate_from k rs).
Proof.
  induction rs as [|r rs IH]; intros k; [constructor|].
  change (enumerate_from k (r :: rs)) with ((k, r) :: enumerate_from (S k) rs).
  constructor; [apply IH|].
  apply Forall_forall. intros e He.
  assert (Hin : In (fst e) (seq (S k) (List.length rs))).
  { rewrite <- enumerate_from_indices. apply in_map. exact He. }
  apply in_seq in Hin. unfold index_lt. simpl. lia.
Qed.

(** Sorting any rearrangement of the enumerated list gives it back. *)
Lemma sort_of_rearranged :
  forall rs l, Permutation l (enumerate_from 0 rs) -> sort l = enumerate_from 0 rs.
Proof.
  intros rs l Hp. apply sorted_perm_unique.
  - apply sort_sorted.
    apply (Permutation_NoDup (l := map fst (enumerate_from 0 rs))).
    + apply Permutation_sym, Permutation_map. exact Hp.
    + rewrite enumerate_from_indices. apply seq_NoDup.
  - apply enumerate_from_sorted.
  - rewrite sort_perm. exact Hp.
Qed.

(** ** Buckets by residue *)

Lemma filter_split_perm :
  forall (A : Type) (p : A -> bool) l,
    Permutation (filter p l ++ filter (fun x => negb (p x)) l) l.
Proof.
  induction l as [|x l IH]; simpl; [reflexivity|].
  destruct (p x); simpl.
  - apply perm_skip. exact IH.
  - apply Permutation_sym, Permutation_cons_app, Permutation_sym. exact IH.
Qed.

Lemma buckets_perm :
  forall (A : Type) (key : A -> nat) rs l,
    NoDup rs -> (forall x, In x l -> In (key x) rs) ->
    Permutation (flat_map (fun r => filter (fun x => key x =? r) l) rs) l.
Proof.
  intros A key. induction rs as [|r rs IH]; intros l Hnd Hkeys.
  - destruct l as [|x l]; [reflexivity|].
    exfalso. apply (Hkeys x). left. reflexivity.
  - inversion Hnd as [|? ? Hnotin Hnd']; subst. cbn [flat_map].
    set (l' := filter (fun x => negb (key x =? r)) l).
    assert (E : flat_map (fun r0 => filter (fun x => key x =? r0) l) rs =
                flat_map (fun r0 => filter (fun x => key x =? r0) l') rs).
    { rewrite !flat_map_concat_map. f_equal. apply map_ext_in.
      intros r0 Hr0. unfold l'. clear - Hr0 Hnotin.
      induction l as [|x l IHl]; [reflexivity|]. simpl.
      destruct (Nat.eqb_spec (key x) r0) as [E0|N0];
        destruct (Nat.eqb_spec (key x) r) as [Er|Nr]; simpl.
      - exfalso. apply Hnotin. congruence.
      - rewrite E0, Nat.eqb_refl. f_equal. exact IHl.
      - exact IHl.
      - destruct (Nat.eqb_spec (key x) r0); [contradiction|]. exact IHl. }
    rewrite E. rewrite (IH l' Hnd').
    + apply filter_split_perm.
    + intros x Hx. unfold l' in Hx. apply filter_In in Hx. destruct Hx as [Hx Hk].
      destruct (Hkeys x Hx) as [Er|Hin]; [|exact Hin].
      rewrite Er, Nat.eqb_refl in Hk. discriminate.
Qed.

(** ** Runs of the pool *)

Section PoolRuns.

Variable T : Type.
Variable dtw_batch :
  tensor T -> tensor T -> tensor Z -> tensor Z -> tensor T -> bool -> bool ->
  result (tensor Q).
Variable distance_function : distance_fn T.
Variable symmetric : bool.

Local Abbreviation loc := (loc_dtw_result dtw_batch distance_function symmetric).
Local Abbreviation wloop := (worker_loop dtw_batch distance_function symmetric).
Local Abbreviation work := (worker dtw_batch distance_function symmetric).
Local Abbreviation evals := (eval_all dtw_batch distance_function symmetric).

Definition in_bucket (nprocess worker_rank : nat) (e : entry) : bool :=
  fst e mod nprocess =? worker_rank.

(** A worker whose units all evaluate returns its share, in index order. *)
Lemma worker_loop_all_ok :
  forall groups rs worker_rank nprocess index worker_data,
    nprocess <> 0 -> evals groups = Ok rs ->
    wloop worker_rank nprocess index groups worker_data =
    Ok (worker_data ++ filter (in_bucket nprocess worker_rank) (enumerate_from index rs)).
Proof.
  induction groups as [|g groups IH]; intros rs r n k acc Hn Hev.
  - simpl in Hev. injection Hev as <-. simpl. rewrite app_nil_r. reflexivity.
  - cbn [eval_all] in Hev.
    destruct (loc g) as [e|v] eqn:Eg; [discriminate|]. cbn [rbind] in Hev.
    destruct (evals groups) as [e|rs'] eqn:Er; [discriminate|]. cbn [rbind] in Hev.
    injection Hev as <-.
    cbn [worker_loop].
    replace (n =? 0) with false by (symmetry; apply Nat.eqb_neq; exact Hn).
    change (enumerate_from k (v :: rs')) with ((k, v) :: enumerate_from (S k) rs').
    cbn [filter]. unfold in_bucket at 1. cbn [fst].
    destruct (k mod n =? r); cbn [negb].
    + rewrite Eg. cbn [rbind]. rewrite (IH rs') by (try assumption; reflexivity).
      rewrite <- app_assoc. reflexivity.
    + apply IH; [assumption | reflexivity].
Qed.

(** An exception of a worker is the exception of one of the units. *)
Lemma worker_loop_error_source :
  forall groups worker_rank nprocess index worker_data e,
    nprocess <> 0 ->
    wloop worker_rank nprocess index groups worker_data = Err e ->
    exists g, In g groups /\ loc g = Err e.
Proof.
  induction groups as [|g groups IH]; intros r n k acc e Hn Hw.
  - discriminate.
  - cbn [worker_loop] in Hw.
    replace (n =? 0) with false in Hw by (symmetry; apply Nat.eqb_neq; exact Hn).
    destruct (negb (k mod n =? r)).
    + destruct (IH _ _ _ _ _ Hn Hw) as (g' & Hin & Hg'). exists g'. split; [right|]; assumption.
    + destruct (loc g) as [e'|v] eqn:Eg.
      * cbn [rbind] in Hw. injection Hw as <-. exists g. split; [left; reflexivity | exact Eg].
      * cbn [rbind] in Hw.
        destruct (IH _ _ _ _ _ Hn Hw) as (g' & Hin & Hg'). exists g'. split; [right|]; assumption.
Qed.

(** A worker fails as soon as one of its own units does. *)
Lemma worker_loop_fails :
  forall groups worker_rank nprocess index worker_data i g e,
    nprocess <> 0 ->
    nth_error groups i = Some g -> loc g = Err e ->
    (index + i) mod nprocess = worker_rank ->
    exists e', wloop worker_rank nprocess index groups worker_data = Err e'.
Proof.
  induction groups as [|g0 groups IH]; intros r n k acc i g e Hn Hnth Hg Hmod.
  - destruct i; discriminate.
  - cbn [worker_loop].
    replace (n =? 0) with false by (symmetry; apply Nat.eqb_neq; exact Hn).
    destruct i as [|i].
    + simpl in Hnth. injection Hnth as ->. rewrite Nat.add_0_r in Hmod.
      rewrite Hmod, Nat.eqb_refl. cbn [negb]. rewrite Hg. eexists. reflexivity.
    + simpl in Hnth.
      assert (Hmod' : (S k + i) mod n = r) by (rewrite <- Hmod; f_equal; lia).
      destruct (negb (k mod n =? r)).
      * apply (IH r n (S k) acc i g e); assumption.
      * destruct (loc g0) as [e0|v]; cbn [rbind]; [eexists; reflexivity|].
        apply (IH r n (S k) _ i g e); assumption.
Qed.

Lemma run_jobs_lookup :
  forall nprocess git completion_order fut worker_rank,
    fold_left (complete dtw_batch distance_function symmetric nprocess git)
      completion_order fut worker_rank =
    if existsb (Nat.eqb worker_rank) completion_order
    then Some (work worker_rank nprocess git)
    else fut worker_rank.
Proof.
  intros n git order. induction order as [|j order IH]; intros fut r; [reflexivity|].
  cbn [fold_left existsb]. rewrite IH. unfold complete.
  destruct (existsb (Nat.eqb r) order); [rewrite orb_true_r; reflexivity|].
  rewrite orb_false_r. destruct (Nat.eqb_spec r j) as [->|]; reflexivity.
Qed.

Lemma run_jobs_finished :
  forall nprocess git completion_order worker_rank,
    In worker_rank completion_order ->
    run_jobs dtw_batch distance_function symmetric nprocess git completion_order worker_rank =
    Some (work worker_rank nprocess git).
Proof.
  intros n git order r Hin. unfold run_jobs. rewrite run_jobs_lookup.
  replace (existsb (Nat.eqb r) order) with true; [reflexivity|].
  symmetry. apply existsb_exists. exists r. split; [exact Hin | apply Nat.eqb_refl].
Qed.

Lemma collect_all_ok :
  forall jobs (fut : futures) (f : nat -> list entry) all_worker_data,
    (forall j, In j jobs -> fut j = Some (Ok (f j))) ->
    collect fut jobs all_worker_data = Some (Ok (all_worker_data ++ flat_map f jobs)).
Proof.
  induction jobs as [|j jobs IH]; intros fut f acc H.
  - simpl. rewrite app_nil_r. reflexivity.
  - cbn [collect flat_map]. rewrite (H j) by (left; reflexivity).
    rewrite (IH fut f) by (intros j' Hj'; apply H; right; exact Hj').
    rewrite app_assoc. reflexivity.
Qed.

Lemma collect_error :
  forall jobs (fut : futures) all_worker_data j0 e0,
    (forall j, In j jobs -> exists v, fut j = Some v) ->
    In j0 jobs -> fut j0 = Some (Err e0) ->
    exists j e, In j jobs /\ fut j = Some (Err e) /\
                collect fut jobs all_worker_data = Some (Err e).
Proof.
  induction jobs as [|j jobs IH]; intros fut acc j0 e0 Hall Hin Hj0; [destruct Hin|].
  cbn [collect].
  destruct (Hall j (or_introl eq_refl)) as [[e|l] Hv]; rewrite Hv.
  - exists j, e. split; [left; reflexivity|]. split; [exact Hv | reflexivity].
  - destruct Hin as [->|Hin]; [congruence|].
    destruct (IH fut (acc ++ l) j0 e0) as (j' & e' & Hin' & Hf' & Hc'); try assumption.
    { intros j' Hj'. apply Hall. right. exact Hj'. }
    exists j', e'. split; [right; exact Hin'|]. split; assumption.
Qed.

(** The pool on units that all evaluate. *)
Lemma merged_all_ok :
  forall git nprocess completion_order rs,
    1 <= nprocess ->
    (forall r, r < nprocess -> In r completion_order) ->
    evals (units git) = Ok rs ->
    merged_worker_data dtw_batch distance_function symmetric git nprocess completion_order =
    Some (Ok (enumerate_from 0 rs)).
Proof.
  intros git n order rs Hn Hall Hev. unfold merged_worker_data.
  replace (n =? 0) with false by (symmetry; apply Nat.eqb_neq; lia).
  rewrite (@collect_all_ok (seq 0 n) _
             (fun r => filter (in_bucket n r) (enumerate_from 0 rs)) []).
  - cbn [app]. f_equal. f_equal. apply sort_of_rearranged.
    apply (@buckets_perm entry (fun e => fst e mod n) (seq 0 n) (enumerate_from 0 rs)).
    + apply seq_NoDup.
    + intros e _. apply in_seq. split; [lia|]. simpl. apply Nat.mod_upper_bound. lia.
  - intros j Hj. apply in_seq in Hj.
    rewrite run_jobs_finished by (apply Hall; lia).
    unfold worker. rewrite (@worker_loop_all_ok (units git) rs j n 0 []) by (try assumption; lia).
    reflexivity.
Qed.

End PoolRuns.

Lemma enumerate_from_values :
  forall rs k, map snd (enumerate_from k rs) = rs.
Proof.
  induction rs as [|r rs IH]; intros k; [reflexivity|].
  change (enumerate_from k (r :: rs)) with ((k, r) :: enumerate_from (S k) rs).
  simpl. f_equal. apply IH.
Qed.

(** ** Claims on the worker pool *)

Section PoolClaims.

Variable T : Type.
Variable dtw_batch :
  tensor T -> tensor T -> tensor Z -> tensor Z -> tensor T -> bool -> bool ->
  result (tensor Q).
Variable distance_function : distance_fn T.
Variable symmetric : bool.

(** C7. For every group sequence whose units evaluate, every number of
    workers nprocess >= 1 and every order in which the workers finish, the
    merged output of the pool is the list of (index, scored unit) pairs in
    increasing index order. It is therefore the same list, and the same
    sparse structure, as with a single worker. *)
Theorem pool_output_in_index_order :
  forall (git : group_iterator T) nprocess completion_order rs,
    1 <= nprocess ->
    (forall r, r < nprocess -> In r completion_order) ->
    eval_all dtw_batch distance_function symmetric (units git) = Ok rs ->
    merged_worker_data dtw_batch distance_function symmetric git nprocess completion_order =
      Some (Ok (enumerate_from 0 rs)) /\
    StronglySorted index_lt (enumerate_from 0 rs) /\
    merged_worker_data dtw_batch distance_function symmetric git 1 [0] =
      merged_worker_data dtw_batch distance_function symmetric git nprocess completion_order /\
    get_abx_scores_dtw_on_group dtw_batch distance_function symmetric git 1 [0] =
      get_abx_scores_dtw_on_group dtw_batch distance_function symmetric git nprocess
        completion_order /\
    get_abx_scores_dtw_on_group dtw_batch distance_function symmetric git nprocess
      completion_order =
      Some (Ok (mkSparse (map fst rs) (map snd rs) (get_board_size git))).
Proof.
  intros git n order rs Hn Hall Hev.
  pose proof (@merged_all_ok T dtw_batch distance_function symmetric git n order rs
                Hn Hall Hev) as Hm.
  assert (H1 : merged_worker_data dtw_batch distance_function symmetric git 1 [0] =
               Some (Ok (enumerate_from 0 rs))).
  { apply merged_all_ok; [lia | | exact Hev].
    intros r Hr. left. lia. }
  split; [exact Hm|]. split; [apply enumerate_from_sorted|].
  split; [rewrite H1, Hm; reflexivity|].
  unfold get_abx_scores_dtw_on_group. rewrite H1, Hm. split; [reflexivity|].
  f_equal. f_equal. f_equal.
  - rewrite <- (enumerate_from_values rs 0) at 2. rewrite map_map. reflexivity.
  - rewrite <- (enumerate_from_values rs 0) at 2. rewrite map_map. reflexivity.
Qed.

(** C8. If the evaluation of one unit raises, the pool run fails for every
    number of workers and every completion order: the entry point raises
    the exception of a failing unit and returns no sparse structure. *)
Theorem unit_failure_fails_pool :
  forall (git : group_iterator T) nprocess completion_order i g e,
    1 <= nprocess ->
    (forall r, r < nprocess -> In r completion_order) ->
    nth_error (units git) i = Some g ->
    loc_dtw_result dtw_batch distance_function symmetric g = Err e ->
    exists g' e',
      In g' (units git) /\
      loc_dtw_result dtw_batch distance_function symmetric g' = Err e' /\
      merged_worker_data dtw_batch distance_function symmetric git nprocess completion_order =
        Some (Err e') /\
      get_abx_scores_dtw_on_group dtw_batch distance_function symmetric git nprocess
        completion_order = Some (Err e').
Proof.
  intros git n order i g e Hn Hall Hnth Hg.
  assert (Hn0 : n <> 0) by lia.
  set (fut := run_jobs dtw_batch distance_function symmetric n git order).
  assert (Hfut : forall j, In j (seq 0 n) ->
            fut j = Some (worker dtw_batch distance_function symmetric j n git)).
  { intros j Hj. apply in_seq in Hj. apply run_jobs_finished. apply Hall. lia. }
  destruct (@worker_loop_fails T dtw_batch distance_function symmetric
              (units git) (i mod n) n 0 [] i g e Hn0 Hnth Hg eq_refl) as [e0 He0].
  assert (Hin0 : In (i mod n) (seq 0 n)).
  { apply in_seq. split; [lia|]. simpl. apply Nat.mod_upper_bound. exact Hn0. }
  destruct (@collect_error (seq 0 n) fut [] (i mod n) e0) as (j & e' & Hj & Hfj & Hc).
  - intros j Hj. eexists. apply Hfut. exact Hj.
  - exact Hin0.
  - rewrite Hfut by exact Hin0. unfold worker. rewrite He0. reflexivity.
  - rewrite (Hfut j Hj) in Hfj. injection Hfj as Hw. unfold worker in Hw.
    destruct (@worker_loop_error_source T dtw_batch distance_function symmetric
                (units git) j n 0 [] e' Hn0 Hw) as (g' & Hin' & Hg').
    exists g', e'. split; [exact Hin'|]. split; [exact Hg'|].
    assert (Hm : merged_worker_data dtw_batch distance_function symmetric git n order =
                 Some (Err e')).
    { unfold merged_worker_data.
      replace (n =? 0) with false by (symmetry; apply Nat.eqb_neq; exact Hn0).
      fold fut. rewrite Hc. reflexivity. }
    split; [exact Hm|].
    unfold get_abx_scores_dtw_on_group. rewrite Hm. reflexivity.
Qed.

End PoolClaims.

(** ** Concrete runs of the pool *)

Definition ex_unit (c : Z) (a b : list Q) : group_unit Q :=
  ([c; c]%Z,
   (batch1 a, lengths1 (List.length a)),
   (batch1 b, lengths1 (List.length b)),
   (batch1 a, lengths1 (List.length a))).

Definition ex_iterator : group_iterator Q :=
  mkIterator
    [ex_unit 0 [0%Q; 10%Q] [3%Q; 100%Q];
     ex_unit 1 [1%Q; 2%Q] [1%Q];
     ex_unit 2 [0%Q; 4%Q; 9%Q] [2%Q; 5%Q]]
    [3; 3].

Definition ex_scores : list scored_unit :=
  Eval vm_compute in
    match eval_all toy_dtw_batch toy_distance true (units ex_iterator) with
    | inr rs => rs
    | inl _ => []
    end.

Lemma pool_output_in_index_order_witness :
  merged_worker_data toy_dtw_batch toy_distance true ex_iterator 2 [1; 0] =
    Some (Ok (enumerate_from 0 ex_scores)) /\
  StronglySorted index_lt (enumerate_from 0 ex_scores) /\
  merged_worker_data toy_dtw_batch toy_distance true ex_iterator 1 [0] =
    merged_worker_data toy_dtw_batch toy_distance true ex_iterator 2 [1; 0] /\
  get_abx_scores_dtw_on_group toy_dtw_batch toy_distance true ex_iterator 1 [0] =
    get_abx_scores_dtw_on_group toy_dtw_batch toy_distance true ex_iterator 2 [1; 0] /\
  get_abx_scores_dtw_on_group toy_dtw_batch toy_distance true ex_iterator 2 [1; 0] =
    Some (Ok (mkSparse (map fst ex_scores) (map snd ex_scores) (get_board_size ex_iterator))).
Proof.
  apply (@pool_output_in_index_order Q toy_dtw_batch toy_distance true ex_iterator 2 [1; 0]
           ex_scores).
  - lia.
  - intros r Hr. simpl. lia.
  - reflexivity.
Defined.

(** The second unit has an X batch whose feature dimension differs. *)
Definition ex_bad_unit : group_unit Q :=
  ([1; 1]%Z,
   (zeros [2; 1; 3], lengths1 2),
   (zeros [2; 1; 3], lengths1 2),
   (zeros [2; 1; 4], lengths1 2)).

Definition ex_bad_iterator : group_iterator Q :=
  mkIterator
    [ex_unit 0 [0%Q; 10%Q] [3%Q; 100%Q];
     ex_bad_unit;
     ex_unit 2 [0%Q; 4%Q; 9%Q] [2%Q; 5%Q]]
    [3; 3].

Lemma unit_failure_fails_pool_witness :
  exists g' e',
    In g' (units ex_bad_iterator) /\
    loc_dtw_result toy_dtw_batch toy_distance false g' = Err e' /\
    merged_worker_data toy_dtw_batch toy_distance false ex_bad_iterator 2 [1; 0] =
      Some (Err e') /\
    get_abx_scores_dtw_on_group toy_dtw_batch toy_distance false ex_bad_iterator 2 [1; 0] =
      Some (Err e').
Proof.
  apply (@unit_failure_fails_pool Q toy_dtw_batch toy_distance false ex_bad_iterator 2 [1; 0]
           1 ex_bad_unit AssertionError).
  - lia.
  - intros r Hr. simpl. lia.
  - reflexivity.
  - reflexivity.
Defined.


(** * Further properties of the distance functions *)

Lemma Rsum_nonneg :
  forall l, (forall v, In v l -> (0 <= v)%R) -> (0 <= Rsum l)%R.
Proof.
  induction l as [|v l IH]; intros H; simpl; [lra|].
  assert (0 <= v)%R by (apply H; left; reflexivity).
  assert (0 <= Rsum l)%R by (apply IH; intros; apply H; right; assumption).
  unfold Rsum in *. lra.
Qed.

Lemma Rsum_nonneg_zero :
  forall l, (forall v, In v l -> (0 <= v)%R) -> Rsum l = 0%R ->
            forall v, In v l -> v = 0%R.
Proof.
  induction l as [|w l IH]; intros H Hz v Hin; [destruct Hin|].
  assert (Hw : (0 <= w)%R) by (apply H; left; reflexivity).
  assert (Hl : (0 <= Rsum l)%R) by (apply Rsum_nonneg; intros; apply H; right; assumption).
  change (Rsum (w :: l)) with (w + Rsum l)%R in Hz.
  destruct Hin as [<-|Hin]; [lra|].
  apply IH; try assumption; [intros; apply H; right; assumption | lra].
Qed.

Lemma sq_dist_nonneg : forall a1 a2 D i s j t, (0 <= sq_dist a1 a2 D i s j t)%R.
Proof.
  intros. unfold sq_dist. apply Rsum_nonneg.
  intros v Hv. apply in_map_iff in Hv. destruct Hv as (d & <- & _).
  apply pow2_ge_0.
Qed.

Lemma sq_dist_zero_iff :
  forall a1 a2 D i s j t,
    sq_dist a1 a2 D i s j t = 0%R <->
    forall d, d < D -> tget a1 [i; s; d] = tget a2 [j; t; d].
Proof.
  intros a1 a2 D i s j t. unfold sq_dist. split.
  - intros Hz d Hd.
    assert (Hsq : ((tget a1 [i; s; d] - tget a2 [j; t; d]) ^ 2 = 0)%R).
    { apply Rsum_nonneg_zero
        with (l := map (fun d => ((tget a1 [i; s; d] - tget a2 [j; t; d]) ^ 2)%R) (seq 0 D)).
      - intros v Hv. apply in_map_iff in Hv. destruct Hv as (d' & <- & _). apply pow2_ge_0.
      - exact Hz.
      - apply in_map_iff. exists d. split; [reflexivity|]. apply in_seq. lia. }
    assert (Hd0 : (tget a1 [i; s; d] - tget a2 [j; t; d] = 0)%R) by nra.
    lra.
  - intros Heq.
    rewrite (map_ext_in _ (fun _ => 0%R)).
    + clear. induction (seq 0 D) as [|d l IH]; [reflexivity|].
      change (0 + Rsum (map (fun _ : nat => 0%R) l) = 0)%R. rewrite IH. lra.
    + intros d Hd. apply in_seq in Hd. rewrite Heq by lia. lra.
Qed.

(** X1. On batches with the same feature dimension the euclidian distance
    function returns a tensor of shape (N1, N2, S1, S2); its entry
    [i, j, s, t] is the square root of the summed squared differences of the
    two timestep vectors, it is never negative, and it is 0 exactly when the
    two vectors have the same features. *)
Theorem euclidian_distance_is_a_distance :
  forall a1 a2 N1 S1 N2 S2 D,
    size a1 = [N1; S1; D] -> size a2 = [N2; S2; D] ->
    exists dist,
      get_euclidian_distance_batch a1 a2 = Ok dist /\
      size dist = [N1; N2; S1; S2] /\
      forall i j s t, i < N1 -> j < N2 -> s < S1 -> t < S2 ->
        tget dist [i; j; s; t] = sqrt (sq_dist a1 a2 D i s j t) /\
        (0 <= tget dist [i; j; s; t])%R /\
        (tget dist [i; j; s; t] = 0%R <->
         forall d, d < D -> tget a1 [i; s; d] = tget a2 [j; t; d]).
Proof.
  intros a1 a2 N1 S1 N2 S2 D E1 E2.
  destruct (euclidian_spec a1 a2 E1 E2) as (dist & Hrun & Hsz & _ & Hget).
  exists dist. split; [exact Hrun|]. split; [exact Hsz|].
  intros i j s t Hi Hj Hs Ht. rewrite Hget by assumption.
  split; [reflexivity|]. split; [apply sqrt_pos|].
  rewrite <- sq_dist_zero_iff. split.
  - intros H0. apply sqrt_eq_0; [apply sq_dist_nonneg | exact H0].
  - intros ->. apply sqrt_0.
Qed.

Lemma euclidian_distance_is_a_distance_witness :
  exists dist,
    get_euclidian_distance_batch unit_e1 unit_e2 = Ok dist /\
    size dist = [1; 1; 1; 1] /\
    forall i j s t, i < 1 -> j < 1 -> s < 1 -> t < 1 ->
      tget dist [i; j; s; t] = sqrt (sq_dist unit_e1 unit_e2 2 i s j t) /\
      (0 <= tget dist [i; j; s; t])%R /\
      (tget dist [i; j; s; t] = 0%R <->
       forall d, d < 2 -> tget unit_e1 [i; s; d] = tget unit_e2 [j; t; d]).
Proof.
  apply (@euclidian_distance_is_a_distance unit_e1 unit_e2 1 1 1 1 2); reflexivity.
Defined.

Lemma cosine_value_range : forall v, (0 <= acos (clamp (-1) 1 v) / PI <= 1)%R.
Proof.
  intros v. pose proof (acos_bound (clamp (-1) 1 v)) as [Hlo Hhi].
  pose proof PI_RGT_0 as Hpi. split.
  - apply Rmult_le_pos; [exact Hlo|]. left. apply Rinv_0_lt_compat. exact Hpi.
  - apply Rmult_le_reg_r with PI; [exact Hpi|].
    unfold Rdiv. rewrite Rmult_assoc, Rinv_l by lra. lra.
Qed.

Lemma clamp_above : forall v, (1 <= v)%R -> clamp (-1) 1 v = 1%R.
Proof.
  intros v H. unfold clamp. rewrite Rmax_left by lra. apply Rmin_right. exact H.
Qed.

Lemma clamp_below : forall v, (v <= -1)%R -> clamp (-1) 1 v = (-1)%R.
Proof.
  intros v H. unfold clamp. rewrite Rmax_right by lra. apply Rmin_left. lra.
Qed.

Lemma dot_sym : forall a1 a2 D i s j t, dot a1 a2 D i s j t = dot a2 a1 D j t i s.
Proof.
  intros. unfold dot. f_equal. apply map_ext. intros d. ring.
Qed.

(** X2. Every entry of the cosine distance lies between 0 and 1, whether or
    not the inputs are normalized: the clamp keeps the argument of the arccos
    in range. A dot product of 1 or more gives distance 0, a dot product of
    -1 or less gives distance 1. *)
Theorem cosine_distance_in_unit_interval :
  forall a1 a2 N1 S1 N2 S2 D,
    size a1 = [N1; S1; D] -> size a2 = [N2; S2; D] ->
    exists dist,
      get_cosine_distance_batch a1 a2 = Ok dist /\
      forall i j s t, i < N1 -> j < N2 -> s < S1 -> t < S2 ->
        (0 <= tget dist [i; j; s; t] <= 1)%R /\
        ((1 <= dot a1 a2 D i s j t)%R -> tget dist [i; j; s; t] = 0%R) /\
        ((dot a1 a2 D i s j t <= -1)%R -> tget dist [i; j; s; t] = 1%R).
Proof.
  intros a1 a2 N1 S1 N2 S2 D E1 E2.
  destruct (cosine_spec a1 a2 E1 E2) as (dist & Hrun & _ & _ & Hget).
  exists dist. split; [exact Hrun|].
  intros i j s t Hi Hj Hs Ht. rewrite Hget by assumption.
  split; [apply cosine_value_range|]. split.
  - intros H. rewrite clamp_above by exact H. rewrite acos_1. lra.
  - intros H. rewrite clamp_below by exact H.
    replace (-1)%R with (- (1))%R by lra.
    rewrite acos_opp, acos_1. pose proof PI_RGT_0. field. lra.
Qed.

Lemma cosine_distance_in_unit_interval_witness :
  exists dist,
    get_cosine_distance_batch unit_e1 unit_e2 = Ok dist /\
    forall i j s t, i < 1 -> j < 1 -> s < 1 -> t < 1 ->
      (0 <= tget dist [i; j; s; t] <= 1)%R /\
      ((1 <= dot unit_e1 unit_e2 2 i s j t)%R -> tget dist [i; j; s; t] = 0%R) /\
      ((dot unit_e1 unit_e2 2 i s j t <= -1)%R -> tget dist [i; j; s; t] = 1%R).
Proof.
  apply (@cosine_distance_in_unit_interval unit_e1 unit_e2 1 1 1 1 2); reflexivity.
Defined.

(** X3. The cosine distance is symmetric up to transposition: the entry
    [i, j, s, t] of distance(a1, a2) is the entry [j, i, t, s] of
    distance(a2, a1). *)
Theorem cosine_distance_transposed :
  forall a1 a2 N1 S1 N2 S2 D,
    size a1 = [N1; S1; D] -> size a2 = [N2; S2; D] ->
    exists d12 d21,
      get_cosine_distance_batch a1 a2 = Ok d12 /\
      get_cosine_distance_batch a2 a1 = Ok d21 /\
      size d12 = [N1; N2; S1; S2] /\ size d21 = [N2; N1; S2; S1] /\
      forall i j s t, i < N1 -> j < N2 -> s < S1 -> t < S2 ->
        tget d12 [i; j; s; t] = tget d21 [j; i; t; s].
Proof.
  intros a1 a2 N1 S1 N2 S2 D E1 E2.
  destruct (cosine_spec a1 a2 E1 E2) as (d12 & H12 & Hs12 & _ & G12).
  destruct (cosine_spec a2 a1 E2 E1) as (d21 & H21 & Hs21 & _ & G21).
  exists d12, d21. repeat split; try assumption.
  intros i j s t Hi Hj Hs Ht.
  rewrite G12, G21 by assumption. rewrite (dot_sym a1 a2). reflexivity.
Qed.

Lemma cosine_distance_transposed_witness :
  exists d12 d21,
    get_cosine_distance_batch unit_e1 unit_e2 = Ok d12 /\
    get_cosine_distance_batch unit_e2 unit_e1 = Ok d21 /\
    size d12 = [1; 1; 1; 1] /\ size d21 = [1; 1; 1; 1] /\
    forall i j s t, i < 1 -> j < 1 -> s < 1 -> t < 1 ->
      tget d12 [i; j; s; t] = tget d21 [j; i; t; s].
Proof.
  apply (@cosine_distance_transposed unit_e1 unit_e2 1 1 1 1 2); reflexivity.
Defined.

Lemma unpack3_wrong_rank :
  forall sh : list nat, List.length sh <> 3 -> unpack3 sh = Err (ValueError "unpack").
Proof.
  intros [|n1 [|n2 [|n3 [|n4 sh]]]] H; simpl in *; try reflexivity. lia.
Qed.

Lemma unpack3_rank :
  forall sh : list nat, List.length sh = 3 -> exists n1 n2 n3, sh = [n1; n2; n3].
Proof.
  intros [|n1 [|n2 [|n3 [|n4 sh]]]] H; simpl in H; try discriminate.
  exists n1, n2, n3. reflexivity.
Qed.

Lemma pairwise_wrong_rank :
  forall f g a1 a2,
    List.length (size a1) <> 3 \/ List.length (size a2) <> 3 ->
    pairwise f g a1 a2 = Err (ValueError "unpack").
Proof.
  intros f g a1 a2 H. unfold pairwise.
  destruct (Nat.eq_dec (List.length (size a1)) 3) as [E1|N1].
  - destruct (unpack3_rank _ E1) as (n1 & n2 & n3 & ->). cbn [unpack3 rbind].
    destruct H as [H|H]; [simpl in H; lia|].
    rewrite (unpack3_wrong_rank _ H). reflexivity.
  - rewrite (unpack3_wrong_rank _ N1). reflexivity.
Qed.

Lemma pairwise_feature_mismatch :
  forall f g a1 a2 N1 S1 D1 N2 S2 D2,
    size a1 = [N1; S1; D1] -> size a2 = [N2; S2; D2] -> D1 <> D2 ->
    0 < N1 * S1 ->
    pairwise f g a1 a2 = Err RuntimeError.
Proof.
  intros f g a1 a2 N1 S1 D1 N2 S2 D2 E1 E2 Hd Hpos.
  unfold pairwise. rewrite E1, E2. cbn [unpack3 rbind]. unfold view. rewrite E1.
  replace (numel [N1; 1; S1; 1; D2] =? numel [N1; S1; D1]) with false; [reflexivity|].
  symmetry. apply Nat.eqb_neq. simpl. nia.
Qed.

Lemma pairwise_empty_first :
  forall f g a1 a2 N1 S1 D1 N2 S2 D2,
    size a1 = [N1; S1; D1] -> size a2 = [N2; S2; D2] -> N1 * S1 = 0 ->
    exists r, pairwise f g a1 a2 = Ok r /\ size r = [N1; N2; S1; S2] /\ data r = [].
Proof.
  intros f g a1 a2 N1 S1 D1 N2 S2 D2 E1 E2 Hz.
  unfold pairwise. rewrite E1, E2. cbn [unpack3 rbind]. unfold view. rewrite E1, E2.
  replace (numel [N1; 1; S1; 1; D2] =? numel [N1; S1; D1]) with true
    by (symmetry; apply Nat.eqb_eq; simpl; nia).
  replace (numel [1; N2; 1; S2; D2] =? numel [N2; S2; D2]) with true
    by (symmetry; apply Nat.eqb_eq; simpl; lia).
  cbn [rbind]. unfold broadcast2. cbn [size]. rewrite broadcast_5d. cbn [rbind].
  unfold sum_dim. cbn [tmap size tabulate nth_error firstn skipn app].
  eexists. split; [reflexivity|]. split; [reflexivity|].
  apply length_zero_iff_nil. etransitivity; [apply wf_tabulate|].
  simpl. nia.
Qed.

(** X4. Both distance functions unpack the two shapes as triples and view
    the first batch with the feature dimension of the second. A batch that
    is not 3-dimensional makes them raise a value error; feature dimensions
    that differ make them raise a runtime error as soon as the first batch
    holds a timestep, and go unnoticed, with an empty result of shape
    (N1, N2, S1, S2), when it holds none. *)
Theorem distance_functions_on_bad_shapes :
  forall a1 a2,
    (List.length (size a1) <> 3 \/ List.length (size a2) <> 3 ->
     get_cosine_distance_batch a1 a2 = Err (ValueError "unpack") /\
     get_euclidian_distance_batch a1 a2 = Err (ValueError "unpack")) /\
    (forall N1 S1 D1 N2 S2 D2,
       size a1 = [N1; S1; D1] -> size a2 = [N2; S2; D2] -> D1 <> D2 ->
       (0 < N1 * S1 ->
        get_cosine_distance_batch a1 a2 = Err RuntimeError /\
        get_euclidian_distance_batch a1 a2 = Err RuntimeError) /\
       (N1 * S1 = 0 ->
        exists dc de,
          get_cosine_distance_batch a1 a2 = Ok dc /\
          get_euclidian_distance_batch a1 a2 = Ok de /\
          size dc = [N1; N2; S1; S2] /\ size de = [N1; N2; S1; S2] /\
          data dc = [] /\ data de = [])).
Proof.
  intros a1 a2. split.
  - intros H. rewrite cosine_as_pairwise, euclidian_as_pairwise.
    rewrite !pairwise_wrong_rank by exact H. split; reflexivity.
  - intros N1 S1 D1 N2 S2 D2 E1 E2 Hd. split.
    + intros Hpos. rewrite cosine_as_pairwise, euclidian_as_pairwise.
      rewrite !(@pairwise_feature_mismatch _ _ a1 a2 N1 S1 D1 N2 S2 D2) by assumption.
      split; reflexivity.
    + intros Hz.
      destruct (@pairwise_empty_first Rmult (fun v => v) a1 a2 N1 S1 D1 N2 S2 D2 E1 E2 Hz)
        as (rc & Hc & Hsc & Hdc).
      destruct (@pairwise_empty_first Rminus (fun v => (v ^ 2)%R) a1 a2 N1 S1 D1 N2 S2 D2 E1 E2 Hz)
        as (re & He & Hse & Hde).
      rewrite cosine_as_pairwise, euclidian_as_pairwise, Hc, He. cbn [rbind].
      eexists. eexists. split; [reflexivity|]. split; [reflexivity|].
      unfold tmap. cbn [size data]. rewrite Hdc, Hde. repeat split; assumption.
Qed.

Definition ex_features2 : tensor R := mkTensor [1; 1; 2] [1%R; 0%R].
Definition ex_features3 : tensor R := mkTensor [1; 1; 3] [1%R; 0%R; 0%R].
Definition ex_matrix : tensor R := mkTensor [1; 2] [1%R; 0%R].

Lemma distance_functions_on_bad_shapes_witness :
  (get_cosine_distance_batch ex_matrix ex_features2 = Err (ValueError "unpack") /\
   get_euclidian_distance_batch ex_matrix ex_features2 = Err (ValueError "unpack")) /\
  (get_cosine_distance_batch ex_features2 ex_features3 = Err RuntimeError /\
   get_euclidian_distance_batch ex_features2 ex_features3 = Err RuntimeError).
Proof.
  split.
  - apply (proj1 (distance_functions_on_bad_shapes ex_matrix ex_features2)).
    left. simpl. lia.
  - apply (proj2 (distance_functions_on_bad_shapes ex_features2 ex_features3)
             1 1 2 1 1 3 eq_refl eq_refl); lia.
Defined.

(** X5. With no feature at all (D = 0) the dot product and the squared
    distance are empty sums: every cosine distance is 1/2 and every
    euclidian distance is 0. *)
Theorem distances_without_features :
  forall a1 a2 N1 S1 N2 S2,
    size a1 = [N1; S1; 0] -> size a2 = [N2; S2; 0] ->
    exists dc de,
      get_cosine_distance_batch a1 a2 = Ok dc /\
      get_euclidian_distance_batch a1 a2 = Ok de /\
      forall i j s t, i < N1 -> j < N2 -> s < S1 -> t < S2 ->
        tget dc [i; j; s; t] = (1 / 2)%R /\ tget de [i; j; s; t] = 0%R.
Proof.
  intros a1 a2 N1 S1 N2 S2 E1 E2.
  destruct (cosine_spec a1 a2 E1 E2) as (dc & Hc & _ & _ & Gc).
  destruct (euclidian_spec a1 a2 E1 E2) as (de & He & _ & _ & Ge).
  exists dc, de. split; [exact Hc|]. split; [exact He|].
  intros i j s t Hi Hj Hs Ht. rewrite Gc, Ge by assumption.
  unfold dot, sq_dist. cbn [seq map Rsum fold_right]. split.
  - rewrite clamp_inside by lra. rewrite acos_0. pose proof PI_RGT_0. field. lra.
  - apply sqrt_0.
Qed.

Lemma distances_without_features_witness :
  exists dc de,
    get_cosine_distance_batch (mkTensor [1; 1; 0] []) (mkTensor [1; 1; 0] []) = Ok dc /\
    get_euclidian_distance_batch (mkTensor [1; 1; 0] []) (mkTensor [1; 1; 0] []) = Ok de /\
    forall i j s t, i < 1 -> j < 1 -> s < 1 -> t < 1 ->
      tget dc [i; j; s; t] = (1 / 2)%R /\ tget de [i; j; s; t] = 0%R.
Proof.
  apply (@distances_without_features (mkTensor [1; 1; 0] []) (mkTensor [1; 1; 0] []) 1 1 1 1);
    reflexivity.
Defined.


(** * Further properties of the scorer *)

Lemma nsum_S : forall n f, nsum (S n) f = nsum n f + f n.
Proof.
  intros n f. unfold nsum. rewrite seq_S, map_app, list_sum_app. simpl. lia.
Qed.

Lemma nsum_exchange :
  forall n m (f : nat -> nat -> nat),
    nsum n (fun i => nsum m (fun j => f i j)) = nsum m (fun j => nsum n (fun i => f i j)).
Proof.
  induction n as [|n IH]; intros m f.
  - unfold nsum at 1. simpl. symmetry. rewrite (@nsum_ext m _ (fun _ => 0)).
    + rewrite nsum_const. lia.
    + intros j _. reflexivity.
  - rewrite nsum_S, IH, <- nsum_add. apply nsum_ext. intros j _.
    rewrite nsum_S. reflexivity.
Qed.

Lemma count_triples_swap :
  forall Nx Na Nb (p : nat -> nat -> nat -> bool),
    count_triples Nx Nb Na (fun x b a => p x a b) = count_triples Nx Na Nb p.
Proof.
  intros Nx Na Nb p. unfold count_triples. apply nsum_ext. intros x _.
  apply (nsum_exchange Nb Na (fun b a => if p x a b then 1 else 0)).
Qed.

Lemma count_triples_const_true :
  forall Nx Na Nb, count_triples Nx Na Nb (fun _ _ _ => true) = Nx * Na * Nb.
Proof.
  intros. unfold count_triples.
  rewrite (@nsum_ext Nx _ (fun _ => Na * Nb)).
  - rewrite nsum_const. lia.
  - intros x _. rewrite (@nsum_ext Na _ (fun _ => Nb)).
    + apply nsum_const.
    + intros a _. rewrite nsum_const. lia.
Qed.

Lemma count_triples_const_false :
  forall Nx Na Nb, count_triples Nx Na Nb (fun _ _ _ => false) = 0.
Proof.
  intros. unfold count_triples.
  rewrite (@nsum_ext Nx _ (fun _ => 0)).
  - rewrite nsum_const. lia.
  - intros x _. rewrite (@nsum_ext Na _ (fun _ => 0)).
    + rewrite nsum_const. lia.
    + intros a _. rewrite nsum_const. lia.
Qed.

Lemma count_triples_three_way :
  forall Nx Na Nb (p q r : nat -> nat -> nat -> bool),
    (forall x a b, x < Nx -> a < Na -> b < Nb ->
       (if p x a b then 1 else 0) + (if q x a b then 1 else 0) +
       (if r x a b then 1 else 0) = 1) ->
    count_triples Nx Na Nb p + count_triples Nx Na Nb q + count_triples Nx Na Nb r =
    Nx * Na * Nb.
Proof.
  intros Nx Na Nb p q r H.
  rewrite <- count_triples_const_true. unfold count_triples.
  rewrite <- !nsum_add. apply nsum_ext. intros x Hx.
  rewrite <- !nsum_add. apply nsum_ext. intros a Ha.
  rewrite <- !nsum_add. apply nsum_ext. intros b Hb.
  apply H; assumption.
Qed.

Lemma Q_three_way :
  forall u v : Q,
    (if Qltb u v then 1 else 0) + (if Qltb v u then 1 else 0) + (if Qeqb u v then 1 else 0) = 1.
Proof.
  intros u v.
  destruct (Qltb u v) eqn:E1.
  - rewrite (Qltb_Qeqb_exclusive _ _ E1).
    apply Qltb_lt in E1.
    destruct (Qltb v u) eqn:E2; [|reflexivity].
    apply Qltb_lt in E2. exfalso. exact (Qlt_irrefl _ (Qlt_trans _ _ _ E1 E2)).
  - destruct (Qltb v u) eqn:E2.
    + destruct (Qeqb u v) eqn:E3; [|reflexivity].
      apply Qltb_lt in E2. apply Qeqb_eq in E3. rewrite E3 in E2.
      exfalso. exact (Qlt_irrefl _ E2).
    + destruct (Qeqb u v) eqn:E3; [reflexivity|].
      exfalso.
      assert (H1 : ~ (u < v)%Q) by (intros H; apply Qltb_lt in H; congruence).
      assert (H2 : ~ (v < u)%Q) by (intros H; apply Qltb_lt in H; congruence).
      assert (H3 : (u == v)%Q).
      { apply Qle_antisym; apply Qnot_lt_le; assumption. }
      apply Qeqb_eq in H3. congruence.
Qed.

Lemma Qeqb_sym : forall u v, Qeqb u v = Qeqb v u.
Proof.
  intros u v. destruct (Qeqb u v) eqn:E1, (Qeqb v u) eqn:E2; try reflexivity.
  - apply Qeqb_eq in E1. symmetry in E1. apply Qeqb_eq in E1. congruence.
  - apply Qeqb_eq in E2. symmetry in E2. apply Qeqb_eq in E2. congruence.
Qed.

Lemma score_div_value :
  forall q (d : nat), 0 < d -> score_div q (Z.of_nat d) = SFin (q / inject_Z (Z.of_nat d)).
Proof.
  intros q d Hd. unfold score_div.
  replace (Z.of_nat d =? 0)%Z with false by (symmetry; apply Z.eqb_neq; lia).
  reflexivity.
Qed.

Lemma spec_theta_asymmetric_value :
  forall dxa dxb Nx Na Nb,
    0 < Nx * Na * Nb ->
    spec_theta false dxa dxb Nx Na Nb =
    SFin ((inject_Z (Z.of_nat (spec_wins false dxa dxb Nx Na Nb)) +
           (1 # 2) * inject_Z (Z.of_nat (spec_ties false dxa dxb Nx Na Nb))) /
          inject_Z (Z.of_nat (Nx * Na * Nb)))%Q.
Proof.
  intros dxa dxb Nx Na Nb Hpos. unfold spec_theta, spec_n_pos.
  replace (Z.of_nat Na * Z.of_nat Nx * Z.of_nat Nb)%Z with (Z.of_nat (Nx * Na * Nb))
    by (rewrite !Nat2Z.inj_mul; ring).
  apply score_div_value. exact Hpos.
Qed.

(** X6. Without the symmetric flag, exchanging the roles of A and B
    complements the score: the scores of (dxa, dxb) and of (dxb, dxa) add up
    to 1, ties being split evenly between the two. *)
Theorem swapping_a_and_b_complements_theta :
  forall dxa dxb Nx Na Nb,
    size dxa = [Nx; Na] -> size dxb = [Nx; Nb] ->
    0 < Nx -> 0 < Na -> 0 < Nb ->
    exists q1 q2,
      theta_of_costs dxa dxb false = Ok (SFin q1) /\
      theta_of_costs dxb dxa false = Ok (SFin q2) /\
      (q1 + q2 == 1)%Q.
Proof.
  intros dxa dxb Nx Na Nb Ha Hb Hx Hna Hnb.
  rewrite (@theta_of_costs_asymmetric dxa dxb Nx Na Nb Ha Hb).
  rewrite (@theta_of_costs_asymmetric dxb dxa Nx Nb Na Hb Ha).
  rewrite !spec_theta_asymmetric_value by nia.
  eexists. eexists. split; [reflexivity|]. split; [reflexivity|].
  set (W1 := spec_wins false dxa dxb Nx Na Nb).
  set (T1 := spec_ties false dxa dxb Nx Na Nb).
  set (W2 := spec_wins false dxb dxa Nx Nb Na).
  set (T2 := spec_ties false dxb dxa Nx Nb Na).
  assert (EW2 : W2 = count_triples Nx Na Nb
                  (fun x a b => Qltb (tget dxb [x; b]) (tget dxa [x; a]))).
  { unfold W2, spec_wins, spec_cost_xa. cbn [andb].
    apply (count_triples_swap Nx Na Nb
             (fun x a b => Qltb (tget dxb [x; b]) (tget dxa [x; a]))). }
  assert (ET2 : T2 = T1).
  { unfold T2, T1, spec_ties, spec_cost_xa. cbn [andb].
    rewrite <- (count_triples_swap Nx Na Nb
                  (fun x a b => Qeqb (tget dxa [x; a]) (tget dxb [x; b]))).
    apply count_triples_ext. intros x b a _ _ _. apply Qeqb_sym. }
  assert (Hsum : W1 + W2 + T1 = Nx * Na * Nb).
  { rewrite EW2. unfold W1, T1, spec_wins, spec_ties, spec_cost_xa. cbn [andb].
    apply count_triples_three_way. intros x a b _ _ _. apply Q_three_way. }
  rewrite ET2.
  replace (Nx * Nb * Na) with (Nx * Na * Nb) by lia.
  assert (Hprod : 0 < Nx * Na * Nb)
    by (apply Nat.mul_pos_pos; [apply Nat.mul_pos_pos|]; assumption).
  rewrite <- Hsum in *. clear Hsum EW2 ET2. clearbody W1 T1 W2 T2.
  assert (Hpos : (0 < Z.of_nat (W1 + W2 + T1))%Z) by lia.
  rewrite !Nat2Z.inj_add, !inject_Z_plus in *.
  assert (Hd : ~ (inject_Z (Z.of_nat W1) + inject_Z (Z.of_nat W2) + inject_Z (Z.of_nat T1) == 0)%Q).
  { rewrite <- !inject_Z_plus. intros H0.
    unfold Qeq in H0. simpl in H0. lia. }
  field. exact Hd.
Qed.

Lemma swapping_a_and_b_complements_theta_witness :
  exists q1 q2,
    theta_of_costs ex_tall_dxa ex_tall_dxb false = Ok (SFin q1) /\
    theta_of_costs ex_tall_dxb ex_tall_dxa false = Ok (SFin q2) /\
    (q1 + q2 == 1)%Q.
Proof.
  apply (@swapping_a_and_b_complements_theta ex_tall_dxa ex_tall_dxb 3 2 1);
    try reflexivity; lia.
Defined.

Lemma inject_nat_nonzero :
  forall d, 0 < d -> ~ (inject_Z (Z.of_nat d) == 0)%Q.
Proof.
  intros d Hd H0. unfold Qeq in H0. simpl in H0. lia.
Qed.

(** X7. Without the symmetric flag and with non-empty batches: when every
    X-to-A cost is below every cost of the same X to B the score is 1, when
    every one is above it is 0, and when all are equal it is 1/2. *)
Theorem theta_extremes :
  forall dxa dxb Nx Na Nb,
    size dxa = [Nx; Na] -> size dxb = [Nx; Nb] ->
    0 < Nx -> 0 < Na -> 0 < Nb ->
    exists q,
      theta_of_costs dxa dxb false = Ok (SFin q) /\
      ((forall x a b, x < Nx -> a < Na -> b < Nb ->
          (tget dxa [x; a] < tget dxb [x; b])%Q) -> (q == 1)%Q) /\
      ((forall x a b, x < Nx -> a < Na -> b < Nb ->
          (tget dxb [x; b] < tget dxa [x; a])%Q) -> (q == 0)%Q) /\
      ((forall x a b, x < Nx -> a < Na -> b < Nb ->
          (tget dxa [x; a] == tget dxb [x; b])%Q) -> (q == 1 # 2)%Q).
Proof.
  intros dxa dxb Nx Na Nb Ha Hb Hx Hna Hnb.
  assert (Hprod : 0 < Nx * Na * Nb)
    by (apply Nat.mul_pos_pos; [apply Nat.mul_pos_pos|]; assumption).
  rewrite (@theta_of_costs_asymmetric dxa dxb Nx Na Nb Ha Hb).
  rewrite spec_theta_asymmetric_value by exact Hprod.
  eexists. split; [reflexivity|].
  pose proof (inject_nat_nonzero Hprod) as Hd.
  unfold spec_wins, spec_ties, spec_cost_xa. cbn [andb].
  split; [|split]; intros H.
  - rewrite (@count_triples_ext Nx Na Nb _ (fun _ _ _ => true)).
    + rewrite (@count_triples_ext Nx Na Nb
                 (fun x a b => Qeqb (tget dxa [x; a]) (tget dxb [x; b])) (fun _ _ _ => false)).
      * rewrite count_triples_const_true, count_triples_const_false. simpl (Z.of_nat 0).
        field. exact Hd.
      * intros x a b H1 H2 H3. apply Qltb_Qeqb_exclusive. apply Qltb_lt. apply H; assumption.
    + intros x a b H1 H2 H3. apply Qltb_lt. apply H; assumption.
  - rewrite (@count_triples_ext Nx Na Nb _ (fun _ _ _ => false)).
    + rewrite (@count_triples_ext Nx Na Nb
                 (fun x a b => Qeqb (tget dxa [x; a]) (tget dxb [x; b])) (fun _ _ _ => false)).
      * rewrite count_triples_const_false. simpl (Z.of_nat 0). field. exact Hd.
      * intros x a b H1 H2 H3. rewrite Qeqb_sym. apply Qltb_Qeqb_exclusive.
        apply Qltb_lt. apply H; assumption.
    + intros x a b H1 H2 H3.
      destruct (Qltb (tget dxa [x; a]) (tget dxb [x; b])) eqn:E; [|reflexivity].
      apply Qltb_lt in E. specialize (H x a b H1 H2 H3).
      exfalso. exact (Qlt_irrefl _ (Qlt_trans _ _ _ E H)).
  - rewrite (@count_triples_ext Nx Na Nb _ (fun _ _ _ => false)).
    + rewrite (@count_triples_ext Nx Na Nb
                 (fun x a b => Qeqb (tget dxa [x; a]) (tget dxb [x; b])) (fun _ _ _ => true)).
      * rewrite count_triples_const_true, count_triples_const_false. simpl (Z.of_nat 0).
        field. exact Hd.
      * intros x a b H1 H2 H3. apply Qeqb_eq. apply H; assumption.
    + intros x a b H1 H2 H3.
      destruct (Qltb (tget dxa [x; a]) (tget dxb [x; b])) eqn:E; [|reflexivity].
      apply Qltb_Qeqb_exclusive in E.
      assert (E' : Qeqb (tget dxa [x; a]) (tget dxb [x; b]) = true)
        by (apply Qeqb_eq; apply H; assumption).
      congruence.
Qed.

Lemma theta_extremes_witness :
  exists q, theta_of_costs ex_tall_dxa ex_tall_dxb false = Ok (SFin q) /\ (q == 1)%Q.
Proof.
  destruct (@theta_extremes ex_tall_dxa ex_tall_dxb 3 2 1 eq_refl eq_refl
              ltac:(lia) ltac:(lia) ltac:(lia)) as (q & Hq & Hwin & _).
  exists q. split; [exact Hq|]. apply Hwin.
  intros x a b Hx Ha Hb.
  destruct x as [|[|[|x]]]; destruct a as [|[|a]]; destruct b as [|b];
    try lia; reflexivity.
Defined.

(** X8. The diagonal loop of symmetric mode, on a matrix with at least as
    many rows as columns, keeps the shape and every entry off the diagonal:
    only the entries [i, i] change. *)
Theorem diagonal_loop_keeps_other_entries :
  forall (dxa : tensor Q) Nx Na v,
    wf dxa -> size dxa = [Nx; Na] -> Na <= Nx ->
    exists dxa',
      overwrite_diagonal (seq 0 Na) v dxa = Ok dxa' /\
      size dxa' = size dxa /\ wf dxa' /\
      forall x a, x < Nx -> a < Na ->
        (x <> a -> tget dxa' [x; a] = tget dxa [x; a]) /\
        (x = a -> tget dxa' [x; a] = v).
Proof.
  intros dxa Nx Na v Hwf Hsz Hle.
  destruct (@overwrite_diagonal_seq Na 0 v dxa Nx Na Hwf Hsz) as (dxa' & E & Hsz' & Hwf' & G);
    try lia.
  exists dxa'. split; [exact E|]. split; [congruence|]. split; [exact Hwf'|].
  intros x a Hx Ha. rewrite G by assumption. split.
  - intros Hne. destruct (Nat.eqb_spec x a); [contradiction | reflexivity].
  - intros ->. rewrite Nat.eqb_refl.
    replace (0 <=? a) with true by (symmetry; apply Nat.leb_le; lia).
    replace (a <? 0 + Na) with true by (symmetry; apply Nat.ltb_lt; lia).
    reflexivity.
Qed.

Lemma diagonal_loop_keeps_other_entries_witness :
  exists dxa',
    overwrite_diagonal (seq 0 2) 7%Q ex_tall_dxa = Ok dxa' /\
    size dxa' = size ex_tall_dxa /\ wf dxa' /\
    forall x a, x < 3 -> a < 2 ->
      (x <> a -> tget dxa' [x; a] = tget ex_tall_dxa [x; a]) /\
      (x = a -> tget dxa' [x; a] = 7%Q).
Proof.
  apply (@diagonal_loop_keeps_other_entries ex_tall_dxa 3 2 7%Q); try reflexivity. lia.
Defined.

Section ScorerOrder.

Variable T : Type.
Variable dtw_batch :
  tensor T -> tensor T -> tensor Z -> tensor Z -> tensor T -> bool -> bool ->
  result (tensor Q).

(** The calls of a run of the scorer whose length vectors fit. *)
Definition scorer_calls (symmetric : bool) : list event :=
  [EvDistance; EvAligner false false; EvDistance; EvAligner symmetric symmetric].

Lemma get_theta_matching :
  forall (a b x : tensor T) sa sb sx (df : distance_fn T) symmetric tr
         Nx Sx Dx Na Sa Da Nb Sb Db,
    check_dtw_group_validity a b x = Ok tt ->
    size x = [Nx; Sx; Dx] -> size a = [Na; Sa; Da] -> size b = [Nb; Sb; Db] ->
    size_at sx 0 = Ok Nx -> size_at sa 0 = Ok Na -> size_at sb 0 = Ok Nb ->
    get_theta_group_dtw dtw_batch a b x sa sb sx df symmetric tr =
    match df x b with
    | inl e => (Err e, tr ++ firstn 1 (scorer_calls symmetric))
    | inr mb =>
        match dtw_batch x b sx sb mb false false with
        | inl e => (Err e, tr ++ firstn 2 (scorer_calls symmetric))
        | inr dxb =>
            match df x a with
            | inl e => (Err e, tr ++ firstn 3 (scorer_calls symmetric))
            | inr ma =>
                match dtw_batch x a sx sa ma symmetric symmetric with
                | inl e => (Err e, tr ++ scorer_calls symmetric)
                | inr dxa => (theta_of_costs dxa dxb symmetric, tr ++ scorer_calls symmetric)
                end
            end
        end
    end.
Proof.
  intros a b x sa sb sx df symmetric tr Nx Sx Dx Na Sa Da Nb Sb Db
    Hc Ex Ea Eb Hsx Hsa Hsb.
  unfold get_theta_group_dtw. unfold bind at 1. unfold lift at 1. rewrite Hc.
  unfold bind at 1.
  rewrite (@get_distance_group_dtw_matching T dtw_batch x b sx sb false false df
             Nx Sx Dx Nb Sb Db tr Ex Eb Hsx Hsb).
  destruct (df x b) as [e|mb]; [reflexivity|].
  destruct (dtw_batch x b sx sb mb false false) as [e|dxb]; [reflexivity|].
  unfold bind at 1.
  rewrite (@get_distance_group_dtw_matching T dtw_batch x a sx sa symmetric symmetric df
             Nx Sx Dx Na Sa Da _ Ex Ea Hsx Hsa).
  destruct (df x a) as [e|ma]; [rewrite <- app_assoc; reflexivity|].
  rewrite <- app_assoc.
  destruct (dtw_batch x a sx sa ma symmetric symmetric) as [e|dxa]; reflexivity.
Qed.

(** X9. On a triplet that passes the validity check and whose length
    vectors fit their batches, the scorer calls the distance function and
    the aligner for (X, B) with both flags off, then for (X, A) with both
    flags set to [symmetric], in this order and at most once each. A run
    that returns a score has made exactly these four calls; an exception of
    the first alignment is raised unchanged and the second alignment is not
    started. *)
Theorem scorer_call_order :
  forall (a b x : tensor T) sa sb sx (df : distance_fn T) symmetric tr
         Nx Sx Dx Na Sa Da Nb Sb Db,
    check_dtw_group_validity a b x = Ok tt ->
    size x = [Nx; Sx; Dx] -> size a = [Na; Sa; Da] -> size b = [Nb; Sb; Db] ->
    size_at sx 0 = Ok Nx -> size_at sa 0 = Ok Na -> size_at sb 0 = Ok Nb ->
    (exists k, k <= 4 /\
       snd (get_theta_group_dtw dtw_batch a b x sa sb sx df symmetric tr) =
       tr ++ firstn k (scorer_calls symmetric)) /\
    (forall theta,
       fst (get_theta_group_dtw dtw_batch a b x sa sb sx df symmetric tr) = Ok theta ->
       snd (get_theta_group_dtw dtw_batch a b x sa sb sx df symmetric tr) =
       tr ++ scorer_calls symmetric) /\
    (forall mb e,
       df x b = Ok mb -> dtw_batch x b sx sb mb false false = Err e ->
       get_theta_group_dtw dtw_batch a b x sa sb sx df symmetric tr =
       (Err e, tr ++ [EvDistance; EvAligner false false])).
Proof.
  intros a b x sa sb sx df symmetric tr Nx Sx Dx Na Sa Da Nb Sb Db
    Hc Ex Ea Eb Hsx Hsa Hsb.
  rewrite (@get_theta_matching a b x sa sb sx df symmetric tr
             Nx Sx Dx Na Sa Da Nb Sb Db Hc Ex Ea Eb Hsx Hsa Hsb).
  split; [|split].
  - destruct (df x b) as [e|mb]; [exists 1; split; [lia | reflexivity]|].
    destruct (dtw_batch x b sx sb mb false false) as [e|dxb];
      [exists 2; split; [lia | reflexivity]|].
    destruct (df x a) as [e|ma]; [exists 3; split; [lia | reflexivity]|].
    destruct (dtw_batch x a sx sa ma symmetric symmetric) as [e|dxa];
      exists 4; split; try lia; reflexivity.
  - intros theta.
    destruct (df x b) as [e|mb]; [discriminate|].
    destruct (dtw_batch x b sx sb mb false false) as [e|dxb]; [discriminate|].
    destruct (df x a) as [e|ma]; [discriminate|].
    destruct (dtw_batch x a sx sa ma symmetric symmetric) as [e|dxa]; reflexivity.
  - intros mb e Hdf Hdtw. rewrite Hdf, Hdtw. reflexivity.
Qed.

(** X10. Where a wrong length vector is noticed inside the scorer. The
    length vector of X is checked first: its mismatch prints the sizes and
    fails before any distance is computed. A mismatch of the length vector
    of B alone fails at the same place and prints nothing. A mismatch of the
    length vector of A is noticed only after the alignment of X with B has
    been computed, and prints nothing either. *)
Theorem scorer_length_checks :
  forall (a b x : tensor T) sa sb sx (df : distance_fn T) symmetric tr
         Nx Sx Dx Na Sa Da Nb Sb Db nx na nb,
    check_dtw_group_validity a b x = Ok tt ->
    size x = [Nx; Sx; Dx] -> size a = [Na; Sa; Da] -> size b = [Nb; Sb; Db] ->
    size_at sx 0 = Ok nx -> size_at sa 0 = Ok na -> size_at sb 0 = Ok nb ->
    (nx <> Nx ->
     get_theta_group_dtw dtw_batch a b x sa sb sx df symmetric tr =
     (Err AssertionError, tr ++ [EvPrint (size x) (size sx); EvPrint (size b) (size sb)])) /\
    (nx = Nx -> nb <> Nb ->
     get_theta_group_dtw dtw_batch a b x sa sb sx df symmetric tr =
     (Err AssertionError, tr)) /\
    (nx = Nx -> nb = Nb -> na <> Na ->
     forall mb dxb,
       df x b = Ok mb -> dtw_batch x b sx sb mb false false = Ok dxb ->
       get_theta_group_dtw dtw_batch a b x sa sb sx df symmetric tr =
       (Err AssertionError, tr ++ [EvDistance; EvAligner false false])).
Proof.
  intros a b x sa sb sx df symmetric tr Nx Sx Dx Na Sa Da Nb Sb Db nx na nb
    Hc Ex Ea Eb Hsx Hsa Hsb.
  unfold get_theta_group_dtw.
  split; [|split].
  - intros Hne. unfold bind at 1. unfold lift at 1. rewrite Hc. unfold bind at 1.
    rewrite (@get_distance_group_dtw_first_mismatch T dtw_batch x b sx sb false false df
               Nx Sx Dx Nb Sb Db nx tr Ex Eb Hsx Hne).
    reflexivity.
  - intros -> Hne. unfold bind at 1. unfold lift at 1. rewrite Hc. unfold bind at 1.
    rewrite (@get_distance_group_dtw_second_mismatch T dtw_batch x b sx sb false false df
               Nx Sx Dx Nb Sb Db nb tr Ex Eb Hsx Hsb Hne).
    reflexivity.
  - intros -> -> Hne mb dxb Hdf Hdtw.
    unfold bind at 1. unfold lift at 1. rewrite Hc. unfold bind at 1.
    rewrite (@get_distance_group_dtw_matching T dtw_batch x b sx sb false false df
               Nx Sx Dx Nb Sb Db tr Ex Eb Hsx Hsb).
    rewrite Hdf, Hdtw. unfold bind at 1.
    rewrite (@get_distance_group_dtw_second_mismatch T dtw_batch x a sx sa symmetric symmetric df
               Nx Sx Dx Na Sa Da na _ Ex Ea Hsx Hsa Hne).
    reflexivity.
Qed.

End ScorerOrder.

Lemma scorer_call_order_witness :
  snd (get_theta_group_dtw toy_dtw_batch ex_x ex_b ex_x
         (lengths1 2) (lengths1 2) (lengths1 2) toy_distance true []) =
  [] ++ scorer_calls true.
Proof.
  apply (proj1 (proj2 (@scorer_call_order Q toy_dtw_batch ex_x ex_b ex_x
                         (lengths1 2) (lengths1 2) (lengths1 2) toy_distance true []
                         2 1 1 2 1 1 2 1 1
                         eq_refl eq_refl eq_refl eq_refl eq_refl eq_refl eq_refl))
           (SFin (4 # 8))).
  reflexivity.
Defined.

Lemma scorer_length_checks_witness :
  get_theta_group_dtw toy_dtw_batch ex_x ex_b (batch1 [0%Q; 1%Q; 2%Q])
    (lengths1 2) (lengths1 2) (lengths1 2) toy_distance false [] =
  (Err AssertionError, [] ++ [EvPrint [3; 1; 1] [2]; EvPrint [2; 1; 1] [2]]).
Proof.
  apply (proj1 (@scorer_length_checks Q toy_dtw_batch ex_x ex_b (batch1 [0%Q; 1%Q; 2%Q])
                  (lengths1 2) (lengths1 2) (lengths1 2) toy_distance false []
                  3 1 1 2 1 1 2 1 1 2 2 2
                  eq_refl eq_refl eq_refl eq_refl eq_refl eq_refl eq_refl)).
  lia.
Defined.

Section EvaluatorReport.

Variable T : Type.
Variable dtw_batch :
  tensor T -> tensor T -> tensor Z -> tensor Z -> tensor T -> bool -> bool ->
  result (tensor Q).

Lemma loc_dtw_run :
  forall coords (a b x : tensor T) sa sb sx (df : distance_fn T) symmetric tr,
    loc_dtw dtw_batch (coords, (a, sa), (b, sb), (x, sx)) df symmetric tr =
    match get_theta_group_dtw dtw_batch a b x sa sb sx df symmetric tr with
    | (inl e, tr') => (Err e, tr')
    | (inr theta, tr') => (Ok (coords, score_compl theta), tr')
    end.
Proof.
  intros. unfold loc_dtw, bind, ret. reflexivity.
Qed.

(** X11. The group evaluator hands the coordinates of its unit through and
    reports 1 - theta. When the two alignments return cost matrices of
    shapes (Nx, Nb) and (Nx, Na) with n_pos * Nb positive (and Na = Nx in
    symmetric mode), the reported value is a number between 0 and 1, the
    complement of (wins + 0.5 * ties) / (n_pos * Nb). *)
Theorem loc_dtw_reports_complement :
  forall coords (a b x : tensor T) sa sb sx (df : distance_fn T) symmetric
         tr0 tr1 tr2 dxb dxa Nx Na Nb,
    check_dtw_group_validity a b x = Ok tt ->
    get_distance_group_dtw dtw_batch x b sx sb false false df tr0 = (Ok dxb, tr1) ->
    get_distance_group_dtw dtw_batch x a sx sa symmetric symmetric df tr1 = (Ok dxa, tr2) ->
    wf dxa -> wf dxb -> size dxa = [Nx; Na] -> size dxb = [Nx; Nb] ->
    (0 < spec_n_pos symmetric Nx Na * Z.of_nat Nb)%Z ->
    (symmetric = true -> Na = Nx) ->
    exists q,
      spec_theta symmetric dxa dxb Nx Na Nb = SFin q /\
      loc_dtw dtw_batch (coords, (a, sa), (b, sb), (x, sx)) df symmetric tr0 =
        (Ok (coords, SFin (1 - q)), tr2) /\
      (0 <= 1 - q <= 1)%Q.
Proof.
  intros coords a b x sa sb sx df symmetric tr0 tr1 tr2 dxb dxa Nx Na Nb
    Hc Hb Ha Hwa Hwb Hsa Hsb Hpos Hsq.
  destruct (@spec_theta_range symmetric dxa dxb Nx Na Nb Hwb Hsb Hpos Hsq) as (q & Eq & Hq).
  exists q. split; [exact Eq|]. split.
  - rewrite loc_dtw_run.
    rewrite (@get_theta_run T dtw_batch a b x sa sb sx df symmetric tr0 tr1 tr2 dxb dxa Hc Hb Ha).
    assert (Et : theta_of_costs dxa dxb symmetric = Ok (spec_theta symmetric dxa dxb Nx Na Nb)).
    { destruct symmetric.
      - specialize (Hsq eq_refl). subst Nx.
        destruct (@tmax_nonempty dxb Hwb) as [m Hm].
        { rewrite Hsb. unfold spec_n_pos in Hpos. simpl. nia. }
        apply (@theta_of_costs_symmetric dxa dxb Na Na Nb m); try assumption. lia.
      - apply theta_of_costs_asymmetric; assumption. }
    rewrite Et, Eq. reflexivity.
  - destruct Hq as [Hlo Hhi]. split; lra.
Qed.

End EvaluatorReport.

Lemma loc_dtw_reports_complement_witness :
  exists q,
    spec_theta true ex_dxa ex_dxb 2 2 2 = SFin q /\
    loc_dtw toy_dtw_batch
      ([0; 0]%Z, (ex_x, lengths1 2), (ex_b, lengths1 2), (ex_x, lengths1 2))
      toy_distance true [] =
      (Ok ([0; 0]%Z, SFin (1 - q)), ex_trace) /\
    (0 <= 1 - q <= 1)%Q.
Proof.
  apply (@loc_dtw_reports_complement Q toy_dtw_batch [0; 0]%Z ex_x ex_b ex_x
           (lengths1 2) (lengths1 2) (lengths1 2) toy_distance true
           [] [EvDistance; EvAligner false false] ex_trace ex_dxb ex_dxa 2 2 2);
    reflexivity.
Defined.


(** * Further properties of the worker and the pool *)

(** The units a worker evaluates, with their indices: those whose index,
    counted from [index] on, is congruent to its rank. *)
Definition own_units {T : Type} (worker_rank nprocess index : nat)
  (groups : list (group_unit T)) : list (nat * group_unit T) :=
  filter (fun p => fst p mod nprocess =? worker_rank)
    (combine (seq index (List.length groups)) groups).

Lemma in_enumerated :
  forall (A : Type) (l : list A) k i x,
    In (i, x) (combine (seq k (List.length l)) l) <->
    k <= i /\ nth_error l (i - k) = Some x.
Proof.
  induction l as [|y l IH]; intros k i x.
  - simpl. split; [tauto|]. intros [_ H]. destruct (i - k); discriminate.
  - cbn [List.length seq combine In]. rewrite IH. split.
    + intros [E|[Hle Hn]].
      * injection E as <- <-. split; [lia|]. rewrite Nat.sub_diag. reflexivity.
      * split; [lia|]. replace (i - k) with (S (i - S k)) by lia. exact Hn.
    + intros [Hle Hn]. destruct (Nat.eq_dec i k) as [->|Hne].
      * left. rewrite Nat.sub_diag in Hn. simpl in Hn. congruence.
      * right. split; [lia|]. replace (i - k) with (S (i - S k)) in Hn by lia. exact Hn.
Qed.

Lemma combine_seq_app :
  forall (A : Type) (l1 l2 : list A) k,
    combine (seq k (List.length (l1 ++ l2))) (l1 ++ l2) =
    combine (seq k (List.length l1)) l1 ++
    combine (seq (k + List.length l1) (List.length l2)) l2.
Proof.
  induction l1 as [|x l1 IH]; intros l2 k.
  - simpl. rewrite Nat.add_0_r. reflexivity.
  - cbn [List.length app seq combine]. rewrite IH.
    replace (S k + List.length l1) with (k + S (List.length l1)) by lia. reflexivity.
Qed.

Lemma own_units_single :
  forall (T : Type) (groups : list (group_unit T)) k,
    own_units 0 1 k groups = combine (seq k (List.length groups)) groups.
Proof.
  intros T groups. unfold own_units.
  induction groups as [|g l IH]; intros k; [reflexivity|].
  cbn [List.length seq combine filter fst]. rewrite Nat.mod_1_r. cbn [Nat.eqb].
  f_equal. apply IH.
Qed.

Lemma map_snd_enumerated :
  forall (A : Type) (l : list A) k, map snd (combine (seq k (List.length l)) l) = l.
Proof.
  induction l as [|x l IH]; intros k; [reflexivity|].
  cbn [List.length seq combine map snd]. f_equal. apply IH.
Qed.

Lemma map_fst_enumerated :
  forall (A : Type) (l : list A) k,
    map fst (combine (seq k (List.length l)) l) = seq k (List.length l).
Proof.
  induction l as [|x l IH]; intros k; [reflexivity|].
  cbn [List.length seq combine map fst]. f_equal. apply IH.
Qed.

Section PoolMore.

Variable T : Type.
Variable dtw_batch :
  tensor T -> tensor T -> tensor Z -> tensor Z -> tensor T -> bool -> bool ->
  result (tensor Q).
Variable distance_function : distance_fn T.
Variable symmetric : bool.

Local Abbreviation loc := (loc_dtw_result dtw_batch distance_function symmetric).
Local Abbreviation wloop := (worker_loop dtw_batch distance_function symmetric).
Local Abbreviation work := (worker dtw_batch distance_function symmetric).
Local Abbreviation evals := (eval_all dtw_batch distance_function symmetric).
Local Abbreviation abx := (get_abx_scores_dtw_on_group dtw_batch distance_function symmetric).

Lemma worker_loop_own :
  forall groups worker_rank nprocess index worker_data,
    nprocess <> 0 ->
    wloop worker_rank nprocess index groups worker_data =
    let? rs := evals (map snd (own_units worker_rank nprocess index groups)) in
    Ok (worker_data ++ combine (map fst (own_units worker_rank nprocess index groups)) rs).
Proof.
  induction groups as [|g groups IH]; intros r n k acc Hn.
  - simpl. rewrite app_nil_r. reflexivity.
  - cbn [worker_loop].
    replace (n =? 0) with false by (symmetry; apply Nat.eqb_neq; exact Hn).
    unfold own_units. cbn [List.length seq combine filter fst].
    fold (own_units r n (S k) groups).
    destruct (k mod n =? r); cbn [negb].
    + cbn [map snd fst eval_all].
      destruct (loc g) as [e|v]; cbn [rbind]; [reflexivity|].
      rewrite IH by exact Hn.
      destruct (evals (map snd (own_units r n (S k) groups))) as [e|rs]; cbn [rbind];
        [reflexivity|].
      cbn [combine]. rewrite <- app_assoc. reflexivity.
    + apply IH. exact Hn.
Qed.

Lemma eval_all_ok :
  forall l, (forall g, In g l -> exists v, loc g = Ok v) -> exists rs, evals l = Ok rs.
Proof.
  induction l as [|g l IH]; intros H; [exists []; reflexivity|].
  destruct (H g (or_introl eq_refl)) as [v Hv].
  destruct IH as [rs Hrs]; [intros g' Hg'; apply H; right; exact Hg'|].
  exists (v :: rs). cbn [eval_all]. rewrite Hv, Hrs. reflexivity.
Qed.

Lemma eval_all_first_error :
  forall l1 g l2 e,
    (forall g', In g' l1 -> exists v, loc g' = Ok v) -> loc g = Err e ->
    evals (l1 ++ g :: l2) = Err e.
Proof.
  induction l1 as [|g1 l1 IH]; intros g l2 e H Hg.
  - cbn [app eval_all]. rewrite Hg. reflexivity.
  - cbn [app eval_all]. destruct (H g1 (or_introl eq_refl)) as [v Hv]. rewrite Hv.
    cbn [rbind]. rewrite (IH g l2 e); [reflexivity | | exact Hg].
    intros g' Hg'. apply H. right. exact Hg'.
Qed.

Lemma eval_all_length :
  forall l rs, evals l = Ok rs -> List.length rs = List.length l.
Proof.
  induction l as [|g l IH]; intros rs H.
  - injection H as <-. reflexivity.
  - cbn [eval_all] in H. destruct (loc g) as [e|v]; [discriminate|]. cbn [rbind] in H.
    destruct (evals l) as [e|rs'] eqn:E; [discriminate|]. cbn [rbind] in H.
    injection H as <-. simpl. f_equal. apply IH. reflexivity.
Qed.

Lemma in_own_units :
  forall (groups : list (group_unit T)) worker_rank nprocess i g,
    In (i, g) (own_units worker_rank nprocess 0 groups) <->
    nth_error groups i = Some g /\ i mod nprocess = worker_rank.
Proof.
  intros groups r n i g. unfold own_units. rewrite filter_In, in_enumerated.
  cbn [fst]. rewrite Nat.sub_0_r, Nat.eqb_eq. split.
  - intros [[_ H1] H2]. split; assumption.
  - intros [H1 H2]. split; [split; [lia | exact H1] | exact H2].
Qed.

(** X12. A worker is the sequential evaluation of its own units only: the
    units whose index is congruent to its rank modulo nprocess, in
    increasing index order, each result paired with the index of its unit.
    Units of other ranks are not evaluated, and a rank that is not below
    nprocess owns nothing and returns the empty list. *)
Theorem worker_evaluates_own_units :
  forall (git : group_iterator T) worker_rank nprocess,
    nprocess <> 0 ->
    work worker_rank nprocess git =
      (let? rs := evals (map snd (own_units worker_rank nprocess 0 (units git))) in
       Ok (combine (map fst (own_units worker_rank nprocess 0 (units git))) rs)) /\
    (forall i g,
       In (i, g) (own_units worker_rank nprocess 0 (units git)) <->
       nth_error (units git) i = Some g /\ i mod nprocess = worker_rank) /\
    (nprocess <= worker_rank -> work worker_rank nprocess git = Ok []).
Proof.
  intros git r n Hn.
  assert (E : work r n git =
              (let? rs := evals (map snd (own_units r n 0 (units git))) in
               Ok (combine (map fst (own_units r n 0 (units git))) rs))).
  { unfold worker. rewrite worker_loop_own by exact Hn. reflexivity. }
  split; [exact E|]. split; [intros i g; apply in_own_units|].
  intros Hle. rewrite E.
  assert (Hnil : own_units r n 0 (units git) = []).
  { destruct (own_units r n 0 (units git)) as [|[i g] l] eqn:Eo; [reflexivity|].
    assert (Hin : In (i, g) (own_units r n 0 (units git))) by (rewrite Eo; left; reflexivity).
    apply in_own_units in Hin. destruct Hin as [_ Hmod].
    pose proof (Nat.mod_upper_bound i n Hn). lia. }
  rewrite Hnil. reflexivity.
Qed.

Lemma collect_first_error :
  forall jobs1 j jobs2 (fut : futures) all_worker_data e,
    (forall j', In j' jobs1 -> exists l, fut j' = Some (Ok l)) ->
    fut j = Some (Err e) ->
    collect fut (jobs1 ++ j :: jobs2) all_worker_data = Some (Err e).
Proof.
  induction jobs1 as [|j1 jobs1 IH]; intros j jobs2 fut acc e H Hj.
  - cbn [app collect]. rewrite Hj. reflexivity.
  - cbn [app collect]. destruct (H j1 (or_introl eq_refl)) as [l Hl]. rewrite Hl.
    apply IH; [|exact Hj]. intros j' Hj'. apply H. right. exact Hj'.
Qed.

Lemma own_units_split :
  forall l1 (g : group_unit T) l2 worker_rank nprocess,
    List.length l1 mod nprocess = worker_rank ->
    own_units worker_rank nprocess 0 (l1 ++ g :: l2) =
    own_units worker_rank nprocess 0 l1 ++
    (List.length l1, g) :: own_units worker_rank nprocess (S (List.length l1)) l2.
Proof.
  intros l1 g l2 r n Hmod. unfold own_units.
  rewrite combine_seq_app, filter_app. f_equal.
  cbn [List.length seq combine filter fst]. rewrite Nat.add_0_l, Hmod, Nat.eqb_refl.
  reflexivity.
Qed.

(** Which exception a worker raises: that of its first failing unit. *)
Lemma worker_first_error :
  forall (git : group_iterator T) nprocess i g e,
    nprocess <> 0 ->
    nth_error (units git) i = Some g -> loc g = Err e ->
    (forall i' g', nth_error (units git) i' = Some g' ->
       i' mod nprocess = i mod nprocess -> i' < i -> exists v, loc g' = Ok v) ->
    work (i mod nprocess) nprocess git = Err e.
Proof.
  intros git n i g e Hn Hnth Hg Hbefore.
  unfold worker. rewrite worker_loop_own by exact Hn.
  destruct (nth_error_split _ _ Hnth) as (l1 & l2 & Hsplit & Hlen).
  rewrite Hsplit, own_units_split by (rewrite Hlen; reflexivity).
  rewrite map_app. cbn [map snd].
  rewrite eval_all_first_error with (e := e); [reflexivity | | exact Hg].
  intros g' Hg'. apply in_map_iff in Hg'. destruct Hg' as ([i' g''] & Eg & Hin).
  cbn [snd] in Eg. subst g''. apply in_own_units in Hin. destruct Hin as [Hn' Hmod].
  assert (Hi' : i' < List.length l1) by (apply nth_error_Some; congruence).
  apply (Hbefore i' g').
  - rewrite Hsplit. rewrite nth_error_app1 by exact Hi'. exact Hn'.
  - exact Hmod.
  - lia.
Qed.

Lemma worker_all_own_ok :
  forall (git : group_iterator T) worker_rank nprocess,
    nprocess <> 0 ->
    (forall i g, nth_error (units git) i = Some g -> i mod nprocess = worker_rank ->
                 exists v, loc g = Ok v) ->
    exists l, work worker_rank nprocess git = Ok l.
Proof.
  intros git r n Hn H. unfold worker. rewrite worker_loop_own by exact Hn.
  destruct (@eval_all_ok (map snd (own_units r n 0 (units git)))) as [rs Hrs].
  - intros g Hg. apply in_map_iff in Hg. destruct Hg as ([i g'] & Eg & Hin).
    cbn [snd] in Eg. subst g'. apply in_own_units in Hin. destruct Hin as [H1 H2].
    apply (H i g); assumption.
  - rewrite Hrs. eexists. reflexivity.
Qed.

(** X13. Which exception the entry point raises when units fail: that of
    the failing unit that comes first by worker rank (index modulo
    nprocess) and, within a rank, by index. The results are collected in
    rank order, so this holds for every order in which the workers finish. *)
Theorem pool_raises_first_failure :
  forall (git : group_iterator T) nprocess completion_order i g e,
    1 <= nprocess ->
    (forall r, r < nprocess -> In r completion_order) ->
    nth_error (units git) i = Some g -> loc g = Err e ->
    (forall i' g', nth_error (units git) i' = Some g' ->
       i' mod nprocess < i mod nprocess \/
       (i' mod nprocess = i mod nprocess /\ i' < i) ->
       exists v, loc g' = Ok v) ->
    abx git nprocess completion_order = Some (Err e).
Proof.
  intros git n order i g e Hn Hall Hnth Hg Hfirst.
  assert (Hn0 : n <> 0) by lia.
  assert (Hr : i mod n < n) by (apply Nat.mod_upper_bound; exact Hn0).
  unfold get_abx_scores_dtw_on_group, merged_worker_data.
  replace (n =? 0) with false by (symmetry; apply Nat.eqb_neq; exact Hn0).
  replace (seq 0 n) with (seq 0 (i mod n) ++ (i mod n) :: seq (S (i mod n)) (n - S (i mod n))).
  - rewrite (@collect_first_error _ _ _ _ [] e); [reflexivity| |].
    + intros r' Hr'. apply in_seq in Hr'.
      rewrite run_jobs_finished by (apply Hall; lia).
      destruct (@worker_all_own_ok git r' n Hn0) as [l Hl].
      * intros i' g' Hn' Hmod. apply (Hfirst i' g' Hn'). left. lia.
      * exists l. rewrite Hl. reflexivity.
    + rewrite run_jobs_finished by (apply Hall; exact Hr).
      rewrite (@worker_first_error git n i g e Hn0 Hnth Hg); [reflexivity|].
      intros i' g' Hn' Hmod Hlt. apply (Hfirst i' g' Hn'). right. split; assumption.
  - symmetry. transitivity (seq 0 (i mod n + S (n - S (i mod n)))); [f_equal; lia|].
    rewrite seq_app. reflexivity.
Qed.

(** X14. With a single worker the entry point is the sequential evaluation
    of the whole sequence in index order: it raises the exception of the
    first failing unit, and otherwise returns the coordinates and the values
    of all units in the order of the iterator, with its board size. *)
Theorem single_worker_is_sequential :
  forall (git : group_iterator T),
    abx git 1 [0] =
    match evals (units git) with
    | inl e => Some (Err e)
    | inr rs => Some (Ok (mkSparse (map fst rs) (map snd rs) (get_board_size git)))
    end.
Proof.
  intros git. unfold get_abx_scores_dtw_on_group, merged_worker_data.
  cbn [Nat.eqb seq collect].
  rewrite run_jobs_finished by (left; reflexivity).
  unfold worker. rewrite worker_loop_own by discriminate.
  rewrite own_units_single.
  pose proof (map_snd_enumerated (units git) 0) as Esnd.
  pose proof (map_fst_enumerated (units git) 0) as Efst.
  rewrite Esnd, Efst.
  destruct (evals (units git)) as [e|rs] eqn:Ev; cbn [rbind]; [reflexivity|].
  rewrite <- (eval_all_length _ Ev). fold (enumerate_from 0 rs). cbn [app].
  rewrite (@sort_of_rearranged rs (enumerate_from 0 rs)) by reflexivity.
  f_equal. f_equal. f_equal.
  - rewrite <- (enumerate_from_values rs 0) at 2. rewrite map_map. reflexivity.
  - rewrite <- (enumerate_from_values rs 0) at 2. rewrite map_map. reflexivity.
Qed.

End PoolMore.

Lemma worker_evaluates_own_units_witness :
  worker toy_dtw_batch toy_distance true 1 2 ex_iterator =
    (let? rs := eval_all toy_dtw_batch toy_distance true
                  (map snd (own_units 1 2 0 (units ex_iterator))) in
     Ok (combine (map fst (own_units 1 2 0 (units ex_iterator))) rs)) /\
  (forall i g,
     In (i, g) (own_units 1 2 0 (units ex_iterator)) <->
     nth_error (units ex_iterator) i = Some g /\ i mod 2 = 1) /\
  (2 <= 1 -> worker toy_dtw_batch toy_distance true 1 2 ex_iterator = Ok []).
Proof.
  apply (@worker_evaluates_own_units Q toy_dtw_batch toy_distance true ex_iterator 1 2).
  discriminate.
Defined.

(** A unit of 4-dimensional arrays: it passes the validity check and fails
    when the wrapper unpacks the shape. *)
Definition ex_rank4_unit : group_unit Q :=
  ([2; 2]%Z,
   (zeros [1; 1; 1; 1], lengths1 1),
   (zeros [1; 1; 1; 1], lengths1 1),
   (zeros [1; 1; 1; 1], lengths1 1)).

Definition ex_two_failures : group_iterator Q :=
  mkIterator [ex_unit 0 [0%Q; 10%Q] [3%Q; 100%Q]; ex_bad_unit; ex_rank4_unit] [3; 3].

(** With two workers the unit of index 2 belongs to rank 0 and its exception
    is the one raised, although the unit of index 1 fails too. *)
Lemma pool_raises_first_failure_witness :
  get_abx_scores_dtw_on_group toy_dtw_batch toy_distance false ex_two_failures 2 [1; 0] =
  Some (Err (ValueError "unpack")).
Proof.
  apply (@pool_raises_first_failure Q toy_dtw_batch toy_distance false ex_two_failures
           2 [1; 0] 2 ex_rank4_unit (ValueError "unpack")).
  - lia.
  - intros r Hr. simpl. lia.
  - reflexivity.
  - reflexivity.
  - intros i' g' Hn H.
    destruct i' as [|[|[|i']]]; simpl in Hn, H.
    + injection Hn as <-. eexists. reflexivity.
    + lia.
    + lia.
    + destruct i'; discriminate.
Defined.


(** * Further properties of the validity check and of degenerate scores *)

Lemma size_at_cases :
  forall (T : Type) (t : tensor T) k,
    (exists d, size_at t k = Ok d /\ k < rank t) \/
    (size_at t k = Err IndexError /\ rank t <= k).
Proof.
  intros T t k. unfold size_at, rank.
  destruct (nth_error (size t) k) as [d|] eqn:E.
  - left. exists d. split; [reflexivity|]. apply nth_error_Some. congruence.
  - right. split; [reflexivity|]. apply nth_error_None. exact E.
Qed.

(** X15. The validity check passes exactly when the three arrays have the
    same rank and the same size on axis 2 (which they then must have); it
    raises an index error exactly when the ranks agree and are below 3, and
    an assertion error in every other case. Batch sizes and sequence lengths
    play no part. *)
Theorem validity_check_outcomes :
  forall (T : Type) (a b x : tensor T),
    (check_dtw_group_validity a b x = Ok tt <->
     rank a = rank b /\ rank a = rank x /\
     exists d, size_at a 2 = Ok d /\ size_at b 2 = Ok d /\ size_at x 2 = Ok d) /\
    (check_dtw_group_validity a b x = Err IndexError <->
     rank a = rank b /\ rank a = rank x /\ rank a < 3) /\
    (check_dtw_group_validity a b x = Ok tt \/
     check_dtw_group_validity a b x = Err IndexError \/
     check_dtw_group_validity a b x = Err AssertionError).
Proof.
  intros T a b x. unfold check_dtw_group_validity.
  destruct (Nat.eqb_spec (rank a) (rank b)) as [Eab|Nab]; cbn [rassert rbind].
  2: { split; [|split]; [split; [discriminate | tauto] | split; [discriminate | tauto] |].
       right; right; reflexivity. }
  destruct (Nat.eqb_spec (rank a) (rank x)) as [Eax|Nax]; cbn [rassert rbind].
  2: { split; [|split]; [split; [discriminate | tauto] | split; [discriminate | tauto] |].
       right; right; reflexivity. }
  destruct (size_at_cases a 2) as [(da & Ha & Hra)|[Ha Hra]];
    destruct (size_at_cases b 2) as [(db & Hb & Hrb)|[Hb Hrb]];
    destruct (size_at_cases x 2) as [(dx & Hx & Hrx)|[Hx Hrx]];
    try lia; rewrite ?Ha, ?Hb, ?Hx; cbn [rbind].
  - destruct (Nat.eqb_spec da dx) as [Edx|Ndx]; cbn [rassert rbind].
    + destruct (Nat.eqb_spec da db) as [Edb|Ndb]; cbn [rassert].
      * subst. split; [|split]; [|split; [discriminate | lia] | left; reflexivity].
        split; [|reflexivity]. intros _. split; [exact Eab|]. split; [exact Eax|].
        exists db. repeat split; assumption.
      * split; [|split]; [|split; [discriminate | lia] | right; right; reflexivity].
        split; [discriminate|]. intros (_ & _ & d & E1 & E2 & _). congruence.
    + split; [|split]; [|split; [discriminate | lia] | right; right; reflexivity].
      split; [discriminate|]. intros (_ & _ & d & E1 & _ & E3). congruence.
  - split; [|split];
      [|split; [intros _; repeat split; try assumption; lia | intros _; reflexivity]
       | right; left; reflexivity].
    split; [discriminate|]. intros (_ & _ & d & E1 & _). discriminate.
Qed.

(** X16. In symmetric mode the score does not depend on the diagonal of
    [dxa] as the aligner returned it: two cost matrices of the same shape
    that agree off the diagonal give the same result, the loop having
    replaced both diagonals by max(dxb) + 1. *)
Theorem symmetric_score_ignores_diagonal :
  forall dxa1 dxa2 dxb Nx Na Nb,
    wf dxa1 -> wf dxa2 -> size dxa1 = [Nx; Na] -> size dxa2 = [Nx; Na] ->
    size dxb = [Nx; Nb] -> Na <= Nx ->
    (forall x a, x < Nx -> a < Na -> x <> a -> tget dxa1 [x; a] = tget dxa2 [x; a]) ->
    theta_of_costs dxa1 dxb true = theta_of_costs dxa2 dxb true.
Proof.
  intros dxa1 dxa2 dxb Nx Na Nb Hw1 Hw2 H1 H2 Hb Hle Hoff.
  destruct (tmax dxb) as [e|m] eqn:Em.
  - unfold theta_of_costs. rewrite H1, H2, Hb. cbn [unpack2 rbind]. rewrite Em. reflexivity.
  - rewrite (@theta_of_costs_symmetric dxa1 dxb Nx Na Nb m) by assumption.
    rewrite (@theta_of_costs_symmetric dxa2 dxb Nx Na Nb m) by assumption.
    f_equal. unfold spec_theta, spec_wins, spec_ties. f_equal. f_equal.
    + f_equal. f_equal. apply count_triples_ext. intros x a b Hx Ha Hxb.
      unfold spec_cost_xa. cbn [andb].
      destruct (Nat.eqb_spec x a); [reflexivity|]. rewrite Hoff by assumption. reflexivity.
    + f_equal. f_equal. f_equal. apply count_triples_ext. intros x a b Hx Ha Hxb.
      unfold spec_cost_xa. cbn [andb].
      destruct (Nat.eqb_spec x a); [reflexivity|]. rewrite Hoff by assumption. reflexivity.
Qed.

Definition ex_dxa_other_diagonal : tensor Q := mkTensor [2; 2] [55%Q; 10%Q; 10%Q; 77%Q].

Lemma symmetric_score_ignores_diagonal_witness :
  theta_of_costs ex_dxa ex_dxb true = theta_of_costs ex_dxa_other_diagonal ex_dxb true.
Proof.
  apply (@symmetric_score_ignores_diagonal ex_dxa ex_dxa_other_diagonal ex_dxb 2 2 2);
    try reflexivity; try lia.
  intros x a Hx Ha Hne.
  destruct x as [|[|x]]; destruct a as [|[|a]]; try lia; reflexivity.
Defined.

Lemma count_triples_empty :
  forall Nx Na Nb p, Nx * Na * Nb = 0 -> count_triples Nx Na Nb p = 0.
Proof.
  intros Nx Na Nb p Hz.
  assert (H : count_triples Nx Na Nb p <= count_triples Nx Na Nb (fun _ _ _ => true)).
  { unfold count_triples. apply nsum_le. intros x _. apply nsum_le. intros a _.
    apply nsum_le. intros b _. destruct (p x a b); lia. }
  rewrite count_triples_const_true in H. lia.
Qed.

(** X17. A denominator of zero does not raise: the division of the float
    tensor yields nan. Without the symmetric flag this is the result as soon
    as one of the three batches is empty; in symmetric mode it is the result
    for a single sequence in A and X (n_pos = 1 * 0). *)
Theorem degenerate_scores_are_nan :
  forall dxa dxb Nx Na Nb,
    size dxa = [Nx; Na] -> size dxb = [Nx; Nb] ->
    (Nx * Na * Nb = 0 -> theta_of_costs dxa dxb false = Ok SNaN) /\
    (wf dxa -> wf dxb -> Nx = 1 -> Na = 1 -> 0 < Nb ->
     theta_of_costs dxa dxb true = Ok SNaN).
Proof.
  intros dxa dxb Nx Na Nb Ha Hb. split.
  - intros Hz. rewrite (@theta_of_costs_asymmetric dxa dxb Nx Na Nb Ha Hb).
    unfold spec_theta, spec_wins, spec_ties. rewrite !count_triples_empty by exact Hz.
    unfold spec_n_pos, score_div.
    replace (Z.of_nat Na * Z.of_nat Nx * Z.of_nat Nb =? 0)%Z with true; [reflexivity|].
    symmetry. apply Z.eqb_eq. rewrite <- !Nat2Z.inj_mul.
    replace (Na * Nx * Nb) with 0 by lia. reflexivity.
  - intros Hwa Hwb -> -> Hnb.
    destruct (@tmax_nonempty dxb Hwb) as [m Hm]; [rewrite Hb; simpl; lia|].
    rewrite (@theta_of_costs_symmetric dxa dxb 1 1 Nb m) by (try assumption; lia).
    assert (Hle : forall b, b < Nb -> Qle (tget dxb [0; b]) (largest dxb)).
    { intros b Hlt. apply largest_ge. apply tget_in; [exact Hwb|].
      rewrite Hb. cbn [in_range]. split; [lia | tauto]. }
    unfold spec_theta, spec_wins, spec_ties.
    rewrite (@count_triples_ext 1 1 Nb _ (fun _ _ _ => false)).
    + rewrite (@count_triples_ext 1 1 Nb
                 (fun x a b => Qeqb (spec_cost_xa true dxa dxb x a) (tget dxb [x; b]))
                 (fun _ _ _ => false)).
      * rewrite count_triples_const_false. reflexivity.
      * intros x a b Hx Hxa Hxb. assert (x = 0) by lia. assert (a = 0) by lia. subst.
        unfold spec_cost_xa. cbn [andb Nat.eqb]. apply Qeqb_above. apply Hle. exact Hxb.
    + intros x a b Hx Hxa Hxb. assert (x = 0) by lia. assert (a = 0) by lia. subst.
      unfold spec_cost_xa. cbn [andb Nat.eqb]. apply Qltb_above. apply Hle. exact Hxb.
Qed.

Lemma degenerate_scores_are_nan_witness :
  theta_of_costs (mkTensor [0; 2] []) (mkTensor [0; 1] []) false = Ok SNaN /\
  theta_of_costs (mkTensor [1; 1] [0%Q]) (mkTensor [1; 2] [3%Q; 4%Q]) true = Ok SNaN.
Proof.
  split.
  - apply (proj1 (@degenerate_scores_are_nan (mkTensor [0; 2] []) (mkTensor [0; 1] [])
                    0 2 1 eq_refl eq_refl)).
    reflexivity.
  - apply (proj2 (@degenerate_scores_are_nan (mkTensor [1; 1] [0%Q])
                    (mkTensor [1; 2] [3%Q; 4%Q]) 1 1 2 eq_refl eq_refl));
      try reflexivity. lia.
Defined.

Lemma validity_check_outcomes_witness :
  check_dtw_group_validity (zeros [2; 1; 3]) (zeros [1; 1; 3]) (zeros [4; 2; 3]) = Ok tt /\
  check_dtw_group_validity (zeros [2; 3]) (zeros [2; 3]) (zeros [2; 3]) = Err IndexError.
Proof.
  split.
  - apply (proj1 (@validity_check_outcomes Q (zeros [2; 1; 3]) (zeros [1; 1; 3])
                    (zeros [4; 2; 3]))).
    split; [reflexivity|]. split; [reflexivity|]. exists 3. repeat split.
  - apply (proj1 (proj2 (@validity_check_outcomes Q (zeros [2; 3]) (zeros [2; 3])
                           (zeros [2; 3])))).
    split; [reflexivity|]. split; [reflexivity|]. vm_compute. lia.
Defined.
